(** * fusb_mass_storage_sync: volume tracker and sync orchestrator

    A shallow embedding of [fmount.py] (class [Fmount]) and of
    [fusb_mass_storage_sync.py] (class [FMassStorageSync]).

    Python objects that are mutated in place become records threaded
    through the functions; exceptions become a [completion] value returned
    next to the state reached when the exception left the function; the
    operating system, the file system and the user are inputs (listings,
    directory trees, scripted answers). *)

From stdpp Require Import gmap strings list fin_maps.
From Stdlib Require Import Ascii QArith.

Local Open Scope string_scope.
Local Open Scope nat_scope.
Local Open Scope list_scope.

(** ** Completions shared by both modules *)

Inductive exn :=
| OSError         (* raised by os.listdrives(), Path.is_dir(), Path.iterdir(), Path.rmdir() *)
| ValueError      (* raised by list.remove(x) when x is absent, by float(s) on a bad
                     literal, by ConfigParser.set on bad interpolation syntax, by
                     time.sleep on a negative delay or a NaN *)
| OverflowError   (* raised by time.sleep on a delay too large for its timer *)
| TypeError       (* raised by Path(None) *)
| NoSectionError  (* raised by ConfigParser.set on a missing section *)
| RecursionError  (* raised when a call exceeds the interpreter's recursion limit *)
| DelegateError   (* any exception leaving dirsync.sync *)
| HandlerError.   (* any exception leaving a callback *)

(** How a call ends: it returns, an exception leaves it, or it is still
    waiting for the user when the scripted answers run out. *)
Inductive completion :=
| Normal
| Raised (e : exn)
| Blocked.

#[global] Instance exn_eq_dec : EqDecision exn.
Proof. solve_decision. Defined.
#[global] Instance completion_eq_dec : EqDecision completion.
Proof. solve_decision. Defined.

(** A volume root is identified by its path string. *)
Definition Path := string.

(** ** fmount.py *)
Module Fmount.

(** Outcome of [Path(drive).is_dir()] for one entry of [os.listdrives()]. *)
Inductive probe := IsDir | NotDir | ProbeError.

#[global] Instance probe_eq_dec : EqDecision probe.
Proof. solve_decision. Defined.

(** Outcome of [os.listdrives()]: the entries, each with what [is_dir]
    will answer for it, or an exception. *)
Inductive listing :=
| Listed (entries : list (Path * probe))
| ListError.

(** How a generator stops: exhausted, or an exception leaves it. *)
Inductive gen_end := StopIteration | GenRaise.

(** The body of the [for] loop of [find_drives]: yields the entries that
    are directories, in order, until the list ends or [is_dir] raises. *)
Fixpoint probe_entries (entries : list (Path * probe)) : list Path * gen_end :=
  match entries with
  | [] => ([], StopIteration)
  | (drive, IsDir) :: rest =>
      let '(ys, e) := probe_entries rest in (drive :: ys, e)
  | (_, NotDir) :: rest => probe_entries rest
  | (_, ProbeError) :: _ => ([], GenRaise)
  end.

(** [find_drives]: the drives yielded and how the generator ended. *)
Definition find_drives (os : listing) : list Path * gen_end :=
  match os with
  | Listed entries => probe_entries entries
  | ListError => ([], GenRaise)
  end.

(** The attributes of an [Fmount] object. *)
Record t := mk { drives : list Path; run : bool }.

(** [__init__]: [self.drives = list(self.find_drives())], [self.run = True].
    An exception of the generator leaves the constructor. *)
Definition init (os : listing) : exn + t :=
  match find_drives os with
  | (ds, StopIteration) => inr {| drives := ds; run := true |}
  | (_, GenRaise) => inl OSError
  end.

(** [list.remove(x)]: drops the first element equal to [x]; [None] stands
    for the ValueError raised when there is none. *)
Fixpoint py_remove (x : Path) (l : list Path) : option (list Path) :=
  match l with
  | [] => None
  | y :: l' => if decide (y = x) then Some l' else (y ::.) <$> py_remove x l'
  end.

(** The second loop of [detect_new_drives],
    [for drive in self.drives: if drive not in _drives: self.drives.remove(drive)].
    Python's list iterator keeps an index [i] into the live list: each
    step reads [self.drives[i]] from the list as it is now and increments
    [i]; the loop ends when [i] reaches the current length. [fuel] bounds
    the number of iterations; [None] means the fuel ran out. *)
Fixpoint remove_loop (fuel i : nat) (_drives ds : list Path)
  : option (completion * list Path) :=
  match ds !! i with
  | None => Some (Normal, ds)
  | Some drive =>
      match fuel with
      | O => None
      | S fuel' =>
          if decide (drive ∈ _drives) then remove_loop fuel' (S i) _drives ds
          else
            match py_remove drive ds with
            | None => Some (Raised ValueError, ds)
            | Some ds' => remove_loop fuel' (S i) _drives ds'
            end
      end
  end.

Section WithHandler.
(** [H] is whatever state the callback owns. *)
Context {H : Type}.

(** A callback receives the drive, may change its own state, and
    returns, raises or blocks. It has no access to the tracker. *)
Definition callback := Path → H → completion * H.

(** One record of the invocation log: the drive passed to the
    callback and the value of [self.drives] at that moment. *)
Record call := Call { call_drive : Path; call_tracked : list Path }.

(** The tracker, the callback's state and the log of callback
    invocations made so far. *)
Record world := World { self : t; handler : H; calls : list call }.

(** State of the first loop of [detect_new_drives]. *)
Record adding := Adding {
  a_drives : list Path;     (* self.drives *)
  a_seen : list Path;       (* _drives *)
  a_handler : H;
  a_calls : list call }.

(** The first loop of [detect_new_drives], over the drives the
    generator yields. *)
Fixpoint add_loop (cb : option callback) (gen : list Path) (a : adding)
  : completion * adding :=
  match gen with
  | [] => (Normal, a)
  | drive :: gen' =>
      if decide (drive ∈ a_drives a) then
        add_loop cb gen' (Adding (a_drives a) (a_seen a ++ [drive]) (a_handler a) (a_calls a))
      else
        let ds := a_drives a ++ [drive] in
        match cb with
        | None =>
            add_loop cb gen' (Adding ds (a_seen a ++ [drive]) (a_handler a) (a_calls a))
        | Some f =>
            let log := a_calls a ++ [Call drive ds] in
            match f drive (a_handler a) with
            | (Normal, h) => add_loop cb gen' (Adding ds (a_seen a ++ [drive]) h log)
            | (c, h) => (c, Adding ds (a_seen a) h log)
            end
        end
  end.

(** [detect_new_drives(callback)] given what [find_drives] yields.
    [None] only if the removal loop ran out of fuel (it never does,
    see [detect_new_drives_total]). *)
Definition detect_new_drives (cb : option callback) (gen : list Path * gen_end)
    (w : world) : option (completion * world) :=
  let '(c, a) := add_loop cb gen.1 (Adding (drives (self w)) [] (handler w) (calls w)) in
  let abort c := Some (c, World (mk (a_drives a) (run (self w))) (a_handler a) (a_calls a)) in
  match c, gen.2 with
  | Normal, StopIteration =>
      '(c', ds) ← remove_loop (length (a_drives a)) 0 (a_seen a) (a_drives a);
      Some (c', World (mk ds (run (self w))) (a_handler a) (a_calls a))
  | Normal, GenRaise => abort (Raised OSError)
  | c, _ => abort c
  end.

(** One poll of the [scan] loop: the listing the OS returns at that
    tick and whether [stop()] is called (from the tray menu) while the
    tick is in progress. *)
Record tick := Tick { tick_os : listing; tick_stop : bool }.

(** How [scan] stands when the scripted ticks are used up. *)
Inductive scan_end :=
| Stopped                   (* self.run was False: the loop exited *)
| Polling                   (* still looping *)
| Aborted (c : completion). (* an exception left scan, or the callback blocks *)

(** [stop()]. *)
Definition stop (f : t) : t := mk (drives f) false.

(** [scan(callback, delay)]:
    [while self.run: self.detect_new_drives(callback); time.sleep(delay)]. *)
Fixpoint scan (cb : option callback) (ticks : list tick) (w : world)
  : option (scan_end * world) :=
  if run (self w) then
    match ticks with
    | [] => Some (Polling, w)
    | tk :: ticks' =>
        '(c, w') ← detect_new_drives cb (find_drives (tick_os tk)) w;
        match c with
        | Normal =>
            let w'' := if tick_stop tk
                       then World (stop (self w')) (handler w') (calls w')
                       else w' in
            scan cb ticks' w''
        | _ => Some (Aborted c, w')
        end
    end
  else Some (Stopped, w).

(** Replaying a sequence of successful enumerations: one
    [detect_new_drives] per snapshot. *)
Fixpoint replay (cb : option callback) (snapshots : list (list Path)) (w : world)
  : option (completion * world) :=
  match snapshots with
  | [] => Some (Normal, w)
  | s :: rest =>
      '(c, w') ← detect_new_drives cb (s, StopIteration) w;
      match c with
      | Normal => replay cb rest w'
      | _ => Some (c, w')
      end
  end.

End WithHandler.
Arguments callback : clear implicits.
Arguments world : clear implicits.
Arguments adding : clear implicits.

End Fmount.

(** ** fusb_mass_storage_sync.py *)
Module Sync.

(** *** The configuration store *)

(** A [configparser.ConfigParser]: section name, then option name, to a
    string value. Only the section "Settings" is used. The DEFAULT
    section is not modelled. [ConfigParser()] has the default
    interpolation: [set] refuses a value whose percent signs are not
    well formed (see [valid_syntax]); a stored value is read back as
    stored, which is what [get] returns for every value without a
    percent sign (the rewriting of "%%" and "%(name)s" on read is not
    modelled). *)
Abbreviation ConfigParser := (gmap string (gmap string string)).

(** [value.replace('%%', '')]. *)
Fixpoint drop_escaped (s : string) : string :=
  match s with
  | String c rest =>
      match rest with
      | String c' rest' =>
          if bool_decide (c = "%"%char) && bool_decide (c' = "%"%char)
          then drop_escaped rest'
          else String c (drop_escaped rest)
      | EmptyString => s
      end
  | EmptyString => EmptyString
  end.

(** Where a left-to-right scan for the pattern [%\(([^)]+)\)s] stands. *)
Inductive scan_state :=
| Outside                   (* not in a match *)
| AfterPercent              (* "%" read *)
| InKey (nonempty : bool)   (* "%(" and some characters other than ")" read *)
| AfterClose.               (* "%(name)" read *)

(** Whether every "%" of [s] starts a match of [%\(([^)]+)\)s], that is,
    whether no "%" is left once the matches are removed. *)
Fixpoint only_keys (st : scan_state) (s : string) : bool :=
  match s with
  | EmptyString => match st with Outside => true | _ => false end
  | String c rest =>
      match st with
      | Outside =>
          if bool_decide (c = "%"%char) then only_keys AfterPercent rest
          else only_keys Outside rest
      | AfterPercent =>
          if bool_decide (c = "("%char) then only_keys (InKey false) rest else false
      | InKey nonempty =>
          if bool_decide (c = ")"%char)
          then (if nonempty then only_keys AfterClose rest else false)
          else only_keys (InKey true) rest
      | AfterClose =>
          if bool_decide (c = "s"%char) then only_keys Outside rest else false
      end
  end.

(** [BasicInterpolation.before_set]: the escaped percent signs are
    dropped, then the references [%(name)s]; the value is accepted when
    no percent sign is left. *)
Definition valid_syntax (value : string) : bool :=
  only_keys Outside (drop_escaped value).

Definition has_section (section : string) (c : ConfigParser) : bool :=
  bool_decide (is_Some (c !! section)).

Definition add_section (section : string) (c : ConfigParser) : ConfigParser :=
  <[section := ∅]> c.

(** [config.set(section, key, value)]: ValueError when the value has
    bad interpolation syntax, then NoSectionError when the section is
    missing. *)
Definition cp_set (section key value : string) (c : ConfigParser)
  : exn + ConfigParser :=
  if valid_syntax value then
    match c !! section with
    | Some opts => inr (<[section := <[key := value]> opts]> c)
    | None => inl NoSectionError
    end
  else inl ValueError.

(** [config.get(section, key, fallback=None)]. *)
Definition cp_get (section key : string) (c : ConfigParser) : option string :=
  match c !! section with
  | Some opts => opts !! key
  | None => None
  end.

(** *** The directory below a volume *)

(** What a path can be. [Special] is anything that is neither a
    regular file nor a directory: [is_file()] is False and [iterdir()]
    raises. [unlink()] on a file is taken to succeed, and [rmdir()] to
    succeed exactly on an empty directory. *)
Inductive entry :=
| File
| Special
| Dir (children : list (string * entry)).

(** [Path(drive) / remote_path]. *)
Definition source_path : Type := Path * string.

(** *** Dialogs and other visible effects, in the order they happen *)
Inductive ui_event :=
| Sleep (seconds : Q)                         (* time.sleep *)
| PopupGetFolder (default_path : option string)
| PopupError
| Dirsync (source : source_path) (target : string)
| PopupOkCancel (copied : nat)
| PopupOk (deleted : nat).

(** The state of a [FMassStorageSync] object and of what it acts on. *)
Record App := mkApp {
  config : ConfigParser;                 (* self.config *)
  ini_file : option ConfigParser;        (* the file at self.ini_path, None if absent *)
  writes : nat;                          (* times the file was rewritten *)
  ui : list ui_event;
  fs : gmap source_path entry            (* the directory found at each source path *)
}.

Definition with_config (c : ConfigParser) (a : App) : App :=
  mkApp c (ini_file a) (writes a) (ui a) (fs a).
Definition with_fs (f : gmap source_path entry) (a : App) : App :=
  mkApp (config a) (ini_file a) (writes a) (ui a) f.
Definition emit (e : ui_event) (a : App) : App :=
  mkApp (config a) (ini_file a) (writes a) (ui a ++ [e]) (fs a).

(** A Python float: a finite value, an infinity or a NaN. *)
Inductive pyfloat :=
| Finite (q : Q)
| PosInf
| NegInf
| NaN.

(** [time.sleep(delay)] on a float: the exception it raises, if any.
    The delay is converted to nanoseconds first, which must fit a signed
    64-bit integer (OverflowError otherwise, ValueError on a NaN); then
    a negative delay is refused with ValueError. *)
Definition max_sleep : Q := 9223372036854775807 # 1000000000.

Definition sleep_error (delay : pyfloat) : option exn :=
  match delay with
  | NaN => Some ValueError
  | PosInf | NegInf => Some OverflowError
  | Finite q =>
      if Qle_bool (- max_sleep) q && Qle_bool q max_sleep
      then (if Qle_bool 0 q then None else Some ValueError)
      else Some OverflowError
  end.

(** Class attributes. *)
Definition default_sync_interval : pyfloat := Finite 1.0%Q.
Definition default_icon_path : string := "icon.png".
Definition sleep_before_sync : Q := 2.0%Q.
Definition defaut_remote_path : string := "DCIM".

(** [read_ini], from the content of the file if there is one. *)
Definition read_ini (file : option ConfigParser) : ConfigParser :=
  match file with
  | Some c => if has_section "Settings" c then c else add_section "Settings" c
  | None => ∅
  end.

(** [write_ini]: the file is rewritten with the whole configuration. *)
Definition write_ini (a : App) : App :=
  mkApp (config a) (Some (config a)) (S (writes a)) (ui a) (fs a).

(** A computation on the application state that returns a value or
    raises. *)
Definition M (A : Type) : Type := App → (exn + A) * App.

Definition ret {A} (x : A) : M A := λ a, (inr x, a).
Definition raise {A} (e : exn) : M A := λ a, (inl e, a).
Definition bind {A B} (m : M A) (k : A → M B) : M B :=
  λ a, match m a with
       | (inr x, a') => k x a'
       | (inl e, a') => (inl e, a')
       end.
Definition gets {A} (f : App → A) : M A := λ a, (inr (f a), a).
Definition modify (f : App → App) : M unit := λ a, (inr (), f a).

Notation "x ←ₘ m ; k" := (bind m (λ x, k))
  (at level 100, m at next level, right associativity).
Notation "m ;ₘ k" := (bind m (λ _, k))
  (at level 100, right associativity).

(** [set_settings(key, value)], [value] already converted by [str]. *)
Definition set_settings (key value : string) : M unit :=
  (if_has ←ₘ gets (λ a, has_section "Settings" (config a));
   (if if_has : bool then ret () else modify (λ a, with_config (add_section "Settings" (config a)) a)) ;ₘ
   c ←ₘ gets config;
   match cp_set "Settings" key value c with
   | inl e => raise e
   | inr c' => modify (with_config c') ;ₘ modify write_ini
   end).

(** The [local_folder] property: no default, nothing written. *)
Definition local_folder : M (option string) :=
  gets (λ a, cp_get "Settings" "local_folder" (config a)).

Definition set_local_folder (value : string) : M unit :=
  set_settings "local_folder" value.

(** The [remote_path] property. *)
Definition remote_path : M string :=
  (v ←ₘ gets (λ a, cp_get "Settings" "remote_path" (config a));
   match v with
   | None => set_settings "remote_path" defaut_remote_path ;ₘ ret defaut_remote_path
   | Some remote_path => ret remote_path
   end).

(** The [icon_path] property. *)
Definition icon_path : M string :=
  (v ←ₘ gets (λ a, cp_get "Settings" "icon_path" (config a));
   match v with
   | None => set_settings "icon_path" default_icon_path ;ₘ ret default_icon_path
   | Some icon_path => ret icon_path
   end).

Section Floats.
(** Python's [float(s)] on a string ([None] for ValueError) and
    [str(x)] on a float. *)
Variable float_of_str : string → option pyfloat.
Variable str_of_float : pyfloat → string.

(** [config.getfloat(section, key, fallback=None)]: the fallback
    when the option is absent, a float when it parses, ValueError
    otherwise. *)
Definition getfloat (section key : string) : M (option pyfloat) :=
  (v ←ₘ gets (λ a, cp_get section key (config a));
   match v with
   | None => ret None
   | Some s =>
       match float_of_str s with
       | Some x => ret (Some x)
       | None => raise ValueError
       end
   end).

(** The [sync_interval] property. *)
Definition sync_interval : M pyfloat :=
  (v ←ₘ getfloat "Settings" "sync_interval";
   match v with
   | None =>
       set_settings "sync_interval" (str_of_float default_sync_interval) ;ₘ
       ret default_sync_interval
   | Some sync_interval => ret sync_interval
   end).
End Floats.

(** *** Cleaning the source *)

(** The [for child in p.iterdir()] loop of [del_tree], given what the
    recursive call [self.del_tree(child, level+1)] does: [todo] are the
    children still to visit, [nb_files] the counter, [kept] the children
    already visited that are still in the directory. It returns how the
    loop ended, the counter and the content of the directory. *)
Definition del_children (del_child : entry → completion * nat * option entry)
  : list (string * entry) → nat → list (string * entry)
    → completion * nat * list (string * entry) :=
  fix loop todo nb_files kept :=
    match todo with
    | [] => (Normal, nb_files, kept)
    | (name, child) :: more =>
        match child with
        | File => loop more (S nb_files) kept                (* child.unlink() *)
        | _ =>
            match del_child child with
            | (Normal, n, None) => loop more (nb_files + n) kept
            | (Normal, n, Some child') =>
                loop more (nb_files + n) (kept ++ [(name, child')])
            | (c, _, None) => (c, nb_files, kept ++ more)
            | (c, _, Some child') => (c, nb_files, kept ++ (name, child') :: more)
            end
        end
    end.

(** [del_tree(p, level)] on what is found at [p]: how the call ends,
    the number of files deleted, and what remains at [p] ([None] once
    [p] itself is removed). *)
Fixpoint del_tree (level : nat) (p : entry) {struct p}
  : completion * nat * option entry :=
  match p with
  | Dir children =>
      match del_children (del_tree (S level)) children 0 [] with
      | (Normal, nb_files, remaining) =>
          match level with
          | O => (Normal, nb_files, Some (Dir remaining))
          | S _ =>
              match remaining with                           (* p.rmdir() *)
              | [] => (Normal, nb_files, None)
              | _ :: _ => (Raised OSError, nb_files, Some (Dir remaining))
              end
          end
      | (c, nb_files, remaining) => (c, nb_files, Some (Dir remaining))
      end
  | _ => (Raised OSError, 0, Some p)                         (* p.iterdir() raises *)
  end.

(** *** Synchronising one volume *)

(** What the outside world answers during one [sync_drive]:
    [dirsync.sync] returns a result of some length or raises, and the
    user answers the confirmation with OK or not. *)
Record sync_env := SyncEnv {
  dirsync_result : exn + nat;
  popup_ok_cancel_is_ok : bool }.

(** [del_tree(source)] on the directory found at [source]. *)
Definition del_tree_at (source : source_path) : M nat :=
  (tree ←ₘ gets (λ a, fs a !! source);
   match tree with
   | None => raise OSError                                   (* source.iterdir() raises *)
   | Some p =>
       match del_tree 0 p with
       | (c, nb_files, remaining) =>
           modify (λ a, with_fs (match remaining with
                                 | Some p' => <[source := p']> (fs a)
                                 | None => delete source (fs a)
                                 end) a) ;ₘ
           match c with
           | Normal => ret nb_files
           | Raised e => raise e
           | Blocked => raise OSError
           end
       end
   end).

(** [sync_drive(drive)]. *)
Definition sync_drive (env : sync_env) (drive : Path) : M unit :=
  (remote ←ₘ remote_path;
   let source := (drive, remote) in
   target ←ₘ local_folder;
   match target with
   | None => raise TypeError
   | Some target =>
       modify (emit (Dirsync source target)) ;ₘ
       match dirsync_result env with
       | inl e => raise e
       | inr copied =>
           modify (emit (PopupOkCancel copied)) ;ₘ
           if popup_ok_cancel_is_ok env then
             nb_files ←ₘ del_tree_at source;
             modify (emit (PopupOk nb_files))
           else ret ()
       end
   end).

(** One answer of the user to the folder prompt: what
    [popup_get_folder] returns ([None] on cancel) and what [is_dir()]
    and [exists()] say about that path. *)
Record answer := Answer {
  filename : option string;
  is_dir : bool;
  path_exists : bool }.

(** Python truthiness of what [popup_get_folder] returns. *)
Definition truthy (filename : option string) : bool :=
  match filename with
  | None => false
  | Some s => negb (bool_decide (s = ""))
  end.

(** [ui_sync_drive(drive, sleep_before_sync)]. [script] holds the
    user's answers to the successive folder prompts; the unused answers
    are returned. When the prompt is up and the script is empty the
    call is [Blocked]. The retry is the recursive call of the source:
    [budget] is the number of nested calls the interpreter's recursion
    limit still allows below this one, and the recursive call beyond it
    raises RecursionError. The frames that the library calls of the body
    take are not counted apart. *)
Fixpoint ui_sync_drive (env : Path → sync_env) (drive : Path)
    (sleep : option Q) (budget : nat) (script : list answer) (a : App)
  : completion * list answer * App :=
  let a := emit (Sleep (default sleep_before_sync sleep)) a in
  let a := emit (PopupGetFolder (cp_get "Settings" "local_folder" (config a))) a in
  match script with
  | [] => (Blocked, [], a)
  | ans :: script' =>
      if truthy (filename ans) then
        if is_dir ans && path_exists ans then
          let body :=
            (current ←ₘ local_folder;
             (if bool_decide (filename ans = current) then ret ()
              else set_local_folder (default "" (filename ans))) ;ₘ
             sync_drive (env drive) drive) in
          match body a with
          | (inr _, a') => (Normal, script', a')
          | (inl e, a') => (Raised e, script', a')
          end
        else
          match budget with
          | O => (Raised RecursionError, script', emit PopupError a)
          | S budget' =>
              ui_sync_drive env drive (Some 0.0%Q) budget' script' (emit PopupError a)
          end
      else (Normal, script', a)
  end.

(** [ui_sync_drive] as the callback handed to [Fmount.scan]: its state
    is the application and the answers the user has yet to give. Every
    call from the scan loop starts at the same depth, with the same
    [budget]. *)
Definition callback_state : Type := App * list answer.

Definition ui_sync_drive_callback (env : Path → sync_env) (budget : nat)
  : Fmount.callback callback_state :=
  λ drive '(a, script),
    let '(c, script', a') := ui_sync_drive env drive None budget script a in
    (c, (a', script')).

Section Startup.
Variable float_of_str : string → option pyfloat.
Variable str_of_float : pyfloat → string.

(** [Fmount.scan] with a delay on which [time.sleep] raises [e]: the
    first pass of the loop polls once, then the exception leaves. *)
Definition scan_sleep_raises (e : exn) (cb : option (Fmount.callback callback_state))
    (ticks : list Fmount.tick) (w : Fmount.world callback_state)
  : option (Fmount.scan_end * Fmount.world callback_state) :=
  if Fmount.run (Fmount.self w) then
    match ticks with
    | [] => Some (Fmount.Polling, w)
    | tk :: _ =>
        '(c, w') ← Fmount.detect_new_drives cb (Fmount.find_drives (Fmount.tick_os tk)) w;
        match c with
        | Normal =>
            let w'' := if Fmount.tick_stop tk
                       then Fmount.World (Fmount.stop (Fmount.self w'))
                              (Fmount.handler w') (Fmount.calls w')
                       else w' in
            Some (Fmount.Aborted (Raised e), w'')
        | _ => Some (Fmount.Aborted c, w')
        end
    end
  else Some (Fmount.Stopped, w).

(** [scan_drives()]: [self.fmount.scan(callback=self.ui_sync_drive,
    delay=self.sync_interval)]. The delay is read, through the
    [sync_interval] property, before [scan] is entered; an exception of
    that read leaves [scan_drives] before the first poll. [Fmount.scan]
    takes its [time.sleep(delay)] to return, which it does on the delay
    read unless [sleep_error] says otherwise. *)
Definition scan_drives (env : Path → sync_env) (budget : nat)
    (ticks : list Fmount.tick) (w : Fmount.world callback_state)
  : option (Fmount.scan_end * Fmount.world callback_state) :=
  let '(a, script) := Fmount.handler w in
  match sync_interval float_of_str str_of_float a with
  | (inr delay, a') =>
      let w' := Fmount.World (Fmount.self w) (a', script) (Fmount.calls w) in
      match sleep_error delay with
      | None => Fmount.scan (Some (ui_sync_drive_callback env budget)) ticks w'
      | Some e => scan_sleep_raises e (Some (ui_sync_drive_callback env budget)) ticks w'
      end
  | (inl e, a') =>
      Some (Fmount.Aborted (Raised e),
            Fmount.World (Fmount.self w) (a', script) (Fmount.calls w))
  end.

(** [FMassStorageSync.__init__]: the configuration is read from the file,
    the tracker takes its baseline from the listing [os0], [icon_path] is
    read twice (for [Image.open], whose own failure is caught, and for
    [sg.set_options]), then [scan_drives] runs. [fs0] is the content of
    the source directories, [script] the answers the user will give.
    An exception raised before the scan starts is returned on the left
    with the state reached. *)
Definition startup (file : option ConfigParser) (os0 : Fmount.listing)
    (fs0 : gmap source_path entry) (env : Path → sync_env) (budget : nat)
    (script : list answer) (ticks : list Fmount.tick)
  : exn * App + option (Fmount.scan_end * Fmount.world callback_state) :=
  let a := mkApp (read_ini file) file 0 [] fs0 in
  match Fmount.init os0 with
  | inl e => inl (e, a)
  | inr fm =>
      match (icon_path ;ₘ icon_path) a with
      | (inl e, a') => inl (e, a')
      | (inr _, a') =>
          inr (scan_drives env budget ticks (Fmount.World fm (a', script) []))
      end
  end.
End Startup.

End Sync.

(** ** Specification vocabulary for the tracker *)
Module FmountSpec.
Import Fmount.

(** What the loop computes on a duplicate-free list: after a removal
    the next element slides into the slot just visited and is never
    tested. *)
Fixpoint sweep (seen l : list Path) : list Path :=
  match l with
  | [] => []
  | x :: l' =>
      if decide (x ∈ seen) then x :: sweep seen l'
      else match l' with
           | [] => []
           | y :: l'' => y :: sweep seen l''
           end
  end.

(** Stale entries are isolated when no two neighbours of the list are
    both missing from the enumeration. *)
Fixpoint isolated (seen l : list Path) : Prop :=
  match l with
  | x :: l' =>
      match l' with
      | y :: _ => (x ∈ seen ∨ y ∈ seen) ∧ isolated seen l'
      | [] => True
      end
  | [] => True
  end.

(** The drives of an enumeration that are not tracked yet, each once,
    in enumeration order. *)
Fixpoint appeared (tracked gen : list Path) : list Path :=
  match gen with
  | [] => []
  | d :: gen' =>
      if decide (d ∈ tracked) then appeared tracked gen'
      else d :: appeared (tracked ++ [d]) gen'
  end.

(** The invocation log written while the drives [news] are appended to
    [tracked] one by one: each call sees its own drive already appended. *)
Fixpoint call_log (tracked news : list Path) : list call :=
  match news with
  | [] => []
  | d :: news' => Call d (tracked ++ [d]) :: call_log (tracked ++ [d]) news'
  end.

Section WithHandler.
Context {H : Type}.
Implicit Types (f : callback H).

(** A callback that returns normally whatever it is given. *)
Definition returns f : Prop := ∀ d h, (f d h).1 = Normal.

(** The callback's state after it has been called on each of [ds]. *)
Definition run_handler f (ds : list Path) (h : H) : H :=
  foldl (λ h d, (f d h).2) h ds.

(** The callback's state after it has returned from a call on each of
    [ds] in turn; [None] if one of these calls does not return. *)
Fixpoint run_all f (ds : list Path) (h : H) : option H :=
  match ds with
  | [] => Some h
  | d :: ds' =>
      match f d h with
      | (Normal, h') => run_all f ds' h'
      | _ => None
      end
  end.

End WithHandler.

(** A callback that raises on every drive. *)
Definition failing_callback : callback unit := λ _ h, (Raised HandlerError, h).

(** A callback that records the drives it is given. *)
Definition recording_callback : callback (list Path) := λ d h, (Normal, h ++ [d]).

(** Whether an OS listing makes [find_drives] raise: the query itself
    fails, or [is_dir] raises on some entry. *)
Definition enumeration_fails (os : listing) : Prop :=
  match os with
  | ListError => True
  | Listed entries => ∃ d, (d, ProbeError) ∈ entries
  end.

(** The drives [find_drives] yields at a tick. *)
Definition tick_snapshot (tk : tick) : list Path := (find_drives (tick_os tk)).1.

(** The enumeration of a tick ends without an exception. *)
Definition tick_ok (tk : tick) : Prop := (find_drives (tick_os tk)).2 = StopIteration.

(** The ticks up to and including the first one during which [stop()]
    is called. *)
Fixpoint until_stop (ticks : list tick) : list tick :=
  match ticks with
  | [] => []
  | tk :: rest => if tick_stop tk then [tk] else tk :: until_stop rest
  end.

End FmountSpec.

(** ** Specification vocabulary for the orchestrator *)
Module SyncSpec.
Import Sync.

(** A tree made of regular files and directories only. *)
Fixpoint regular (p : entry) : bool :=
  match p with
  | File => true
  | Special => false
  | Dir children => forallb (λ c, regular c.2) children
  end.

(** The number of files in a tree. *)
Fixpoint count_files (p : entry) : nat :=
  match p with
  | File => 1
  | Special => 0
  | Dir children => sum_list (map (λ c, count_files c.2) children)
  end.

(** The number of directories below the root of a tree. *)
Fixpoint count_dirs (p : entry) : nat :=
  match p with
  | Dir children =>
      sum_list (map (λ c, match c.2 with
                          | Dir _ => S (count_dirs c.2)
                          | _ => 0
                          end) children)
  | _ => 0
  end.

(** The configuration after [set_settings(key, value)]. *)
Definition updated (key value : string) (c : ConfigParser) : ConfigParser :=
  <["Settings" := <[key := value]> (default ∅ (c !! "Settings"))]> c.

(** The state after an unset [key] was read and defaulted to [value]. *)
Definition defaulted (key value : string) (a : App) : App :=
  mkApp (updated key value (config a)) (Some (updated key value (config a)))
        (S (writes a)) (ui a) (fs a).

(** [float] and [str] as far as the examples need them: on "1.0", on
    1.0, and on strings that are not float literals. *)
Definition float_of_str_1_0 (s : string) : option pyfloat :=
  if bool_decide (s = "1.0") then Some (Finite 1.0%Q) else None.
Definition str_of_float_1_0 (x : pyfloat) : string := "1.0".

(** The answer names a path but that path is not an existing
    directory. *)
Definition invalid_choice (ans : answer) : Prop :=
  truthy (filename ans) = true ∧ is_dir ans && path_exists ans = false.

(** The prompt was cancelled, or closed on an empty path. *)
Definition cancelled (ans : answer) : Prop := truthy (filename ans) = false.

(** What [n] invalid choices in a row show: the first round sleeps
    [first] seconds, every later one 0.0. *)
Fixpoint retry_events (first : Q) (lf : option string) (n : nat) : list ui_event :=
  match n with
  | O => []
  | S n' => [Sleep first; PopupGetFolder lf; PopupError] ++ retry_events 0.0%Q lf n'
  end.

(** The application with more events shown and nothing else changed. *)
Definition shown (events : list ui_event) (a : App) : App :=
  mkApp (config a) (ini_file a) (writes a) (ui a ++ events) (fs a).

(** A string without a percent sign. *)
Fixpoint percent_free (s : string) : bool :=
  match s with
  | EmptyString => true
  | String c rest => negb (bool_decide (c = "%"%char)) && percent_free rest
  end.

(** The option names the program uses. *)
Definition option_names : list string :=
  ["local_folder"; "remote_path"; "icon_path"; "sync_interval"].

(** The state once [set_settings] has made sure that the "Settings"
    section exists. *)
Definition section_ensured (a : App) : App :=
  if has_section "Settings" (config a) then a
  else with_config (add_section "Settings" (config a)) a.

(** The answer names an existing directory [f]. *)
Definition valid_choice (ans : answer) (f : string) : Prop :=
  filename ans = Some f ∧ f ≠ "" ∧ is_dir ans && path_exists ans = true.

(** The state in which [sync_drive] calls [dirsync.sync]: the remote
    path defaulted and persisted if it was unset. *)
Definition remote_resolved (a : App) : string * App :=
  match cp_get "Settings" "remote_path" (config a) with
  | Some remote => (remote, a)
  | None => (defaut_remote_path, defaulted "remote_path" defaut_remote_path a)
  end.

(** The state in which [ui_sync_drive] calls [sync_drive] after the user
    chose the existing directory [f]: the sleep and the prompt have
    happened, and [f] has been stored and the file rewritten unless [f]
    was the configured folder already. *)
Definition folder_chosen (sleep : option Q) (f : string) (a : App) : App :=
  let lf := cp_get "Settings" "local_folder" (config a) in
  let prompted := shown [Sleep (default sleep_before_sync sleep); PopupGetFolder lf] a in
  if bool_decide (lf = Some f) then prompted else defaulted "local_folder" f prompted.

(** The completion of a call whose body returned or raised. *)
Definition completion_of {A : Type} (r : exn + A) : completion :=
  match r with
  | inr _ => Normal
  | inl e => Raised e
  end.



End SyncSpec.

(** ** Facts about the tracker *)
Module FmountFacts.
Import Fmount FmountSpec.

(** *** [list.remove] *)

Lemma py_remove_elem_of x l : x ∈ l → is_Some (py_remove x l).
Proof.
  induction l as [|y l IH]; intros Hx; [by apply elem_of_nil in Hx|].
  simpl. destruct (decide (y = x)) as [->|Hne]; [by eexists|].
  apply elem_of_cons in Hx as [->|Hx]; [done|].
  destruct (IH Hx) as [l' ->]. by eexists.
Qed.

Lemma py_remove_None x l : py_remove x l = None → x ∉ l.
Proof.
  intros Hnone Hx. apply py_remove_elem_of in Hx as [l' Hl'].
  congruence.
Qed.

Lemma py_remove_sublist x l l' : py_remove x l = Some l' → sublist l' l.
Proof.
  revert l'. induction l as [|y l IH]; intros l'; simpl; [done|].
  destruct (decide (y = x)) as [->|Hne].
  - intros [= <-]. by apply sublist_cons.
  - destruct (py_remove x l) as [l0|]; simpl; [|done].
    intros [= <-]. apply sublist_skip. by apply IH.
Qed.

Lemma py_remove_length x l l' : py_remove x l = Some l' → length l = S (length l').
Proof.
  revert l'. induction l as [|y l IH]; intros l'; simpl; [done|].
  destruct (decide (y = x)) as [->|Hne].
  - by intros [= <-].
  - destruct (py_remove x l) as [l0|]; simpl; [|done].
    intros [= <-]. simpl. f_equal. by apply IH.
Qed.

(** Elements other than [x] are untouched by [remove(x)]. *)
Lemma py_remove_other x y l l' :
  py_remove x l = Some l' → y ≠ x → y ∈ l → y ∈ l'.
Proof.
  revert l'. induction l as [|z l IH]; intros l'; simpl; [done|].
  destruct (decide (z = x)) as [->|Hne].
  - intros [= <-] Hy Hin. apply elem_of_cons in Hin as [->|Hin]; done.
  - destruct (py_remove x l) as [l0|]; simpl; [|done].
    intros [= <-] Hy Hin. apply elem_of_cons in Hin as [->|Hin].
    + apply elem_of_cons; by left.
    + apply elem_of_cons; right. by apply IH.
Qed.

(** When [x] does not occur before position [length pre], [remove(x)]
    drops exactly the element at that position. *)
Lemma py_remove_middle x pre suf :
  x ∉ pre → py_remove x (pre ++ x :: suf) = Some (pre ++ suf).
Proof.
  induction pre as [|y pre IH]; intros Hx; simpl.
  - by rewrite decide_True.
  - apply not_elem_of_cons in Hx as [Hne Hx].
    rewrite decide_False by done. by rewrite IH.
Qed.

(** *** The removal loop *)

(** The loop always ends within [length ds - i] iterations, and never
    with the ValueError of [list.remove]: the element removed was just
    read from the list. *)
Lemma remove_loop_total fuel i seen ds :
  length ds ≤ fuel + i →
  ∃ ds', remove_loop fuel i seen ds = Some (Normal, ds').
Proof.
  revert i ds. induction fuel as [|fuel IH]; intros i ds Hlen; simpl.
  - destruct (ds !! i) as [d|] eqn:Hd; [|by eexists].
    apply lookup_lt_Some in Hd. lia.
  - destruct (ds !! i) as [d|] eqn:Hd; [|by eexists].
    destruct (decide (d ∈ seen)); [apply IH; lia|].
    destruct (py_remove d ds) as [ds'|] eqn:Hrm.
    + apply IH. apply py_remove_length in Hrm. lia.
    + apply py_remove_None in Hrm. destruct Hrm.
      apply list_elem_of_lookup. by exists i.
Qed.

Lemma remove_loop_sweep fuel seen pre l :
  NoDup (pre ++ l) → length l ≤ fuel →
  remove_loop fuel (length pre) seen (pre ++ l) = Some (Normal, pre ++ sweep seen l).
Proof.
  revert pre l. induction fuel as [|fuel IH]; intros pre l Hnd Hlen.
  - destruct l; [|simpl in Hlen; lia]. simpl.
    rewrite app_nil_r, lookup_ge_None_2; done.
  - destruct l as [|x l].
    { simpl. rewrite app_nil_r, lookup_ge_None_2; done. }
    cbn [remove_loop]. rewrite list_lookup_middle by done.
    simpl in Hlen. simpl sweep.
    destruct (decide (x ∈ seen)).
    + replace (pre ++ x :: l) with ((pre ++ [x]) ++ l) in * by by rewrite <- app_assoc.
      replace (S (length pre)) with (length (pre ++ [x])) by (rewrite length_app; simpl; lia).
      rewrite IH; [|done|lia]. by rewrite <- app_assoc.
    + assert (x ∉ pre) as Hpre.
      { apply NoDup_app in Hnd as (_ & Hnd & _). intros Hx.
        apply (Hnd x Hx). apply elem_of_cons; by left. }
      rewrite py_remove_middle by done.
      assert (NoDup (pre ++ l)) as Hnd'.
      { apply (sublist_NoDup (pre ++ l) (pre ++ x :: l)); [done|].
        apply sublist_app; [done|]. by apply sublist_cons. }
      destruct l as [|y l].
      * rewrite !app_nil_r.
        destruct fuel; simpl; by rewrite lookup_ge_None_2 by lia.
      * replace (pre ++ y :: l) with ((pre ++ [y]) ++ l) in * by by rewrite <- app_assoc.
        replace (S (length pre)) with (length (pre ++ [y])) by (rewrite length_app; simpl; lia).
        rewrite IH; [|done|simpl in Hlen; lia]. by rewrite <- app_assoc.
Qed.

(** On any list, duplicate-free or not, the loop only deletes entries
    and keeps every drive seen in this poll. *)
Lemma remove_loop_sublist fuel i seen ds c ds' :
  remove_loop fuel i seen ds = Some (c, ds') → sublist ds' ds.
Proof.
  revert i ds. induction fuel as [|fuel IH]; intros i ds; simpl.
  - destruct (ds !! i); [done|]. by intros [= <- <-].
  - destruct (ds !! i) as [d|]; [|by intros [= <- <-]].
    destruct (decide (d ∈ seen)); [apply IH|].
    destruct (py_remove d ds) as [ds0|] eqn:Hrm; [|by intros [= <- <-]].
    intros Hrec. etrans; [by eapply IH|]. by eapply py_remove_sublist.
Qed.

Lemma remove_loop_keeps fuel i seen ds c ds' d :
  remove_loop fuel i seen ds = Some (c, ds') → d ∈ seen → d ∈ ds → d ∈ ds'.
Proof.
  revert i ds. induction fuel as [|fuel IH]; intros i ds; simpl.
  - destruct (ds !! i); [done|]. by intros [= <- <-].
  - destruct (ds !! i) as [x|]; [|by intros [= <- <-]].
    destruct (decide (x ∈ seen)) as [Hx|Hx]; [apply IH|].
    destruct (py_remove x ds) as [ds0|] eqn:Hrm; [|by intros [= <- <-]].
    intros Hrec Hd Hin. eapply IH; [done..|].
    eapply py_remove_other; [done| |done]. by intros ->.
Qed.

Lemma sweep_isolated seen l :
  isolated seen l → sweep seen l = filter (λ d, d ∈ seen) l.
Proof.
  assert (∀ n l, length l ≤ n → isolated seen l →
            sweep seen l = filter (λ d, d ∈ seen) l) as Hn.
  { clear l. induction n as [|n IH]; intros l Hlen Hiso.
    { by destruct l; [|simpl in Hlen; lia]. }
    destruct l as [|x l]; [done|]. simpl in Hlen. simpl sweep.
    destruct (decide (x ∈ seen)) as [Hx|Hx].
    - rewrite filter_cons_True by done. f_equal. apply IH; [lia|].
      destruct l; [done|]. by destruct Hiso.
    - rewrite filter_cons_False by done.
      destruct l as [|y l]; [done|]. destruct Hiso as [[?|Hy] Hiso]; [done|].
      rewrite filter_cons_True by done. f_equal. simpl in Hlen.
      apply IH; [lia|]. destruct l; [done|]. by destruct Hiso. }
  by apply (Hn (length l)).
Qed.


(** *** The addition loop *)

Lemma appeared_elem_of tracked gen d :
  d ∈ appeared tracked gen ↔ d ∈ gen ∧ d ∉ tracked.
Proof.
  revert tracked. induction gen as [|x gen IH]; intros tracked; simpl.
  - split; [by intros ?%elem_of_nil|by intros [?%elem_of_nil _]].
  - destruct (decide (x ∈ tracked)) as [Hx|Hx].
    + rewrite IH, elem_of_cons. split; [tauto|].
      intros [[->|?] ?]; tauto.
    + rewrite !elem_of_cons, IH, not_elem_of_app, list_elem_of_singleton.
      destruct (decide (d = x)) as [->|]; tauto.
Qed.


Lemma appeared_NoDup tracked gen :
  NoDup tracked → NoDup (tracked ++ appeared tracked gen).
Proof.
  revert tracked. induction gen as [|x gen IH]; intros tracked Hnd; simpl.
  - by rewrite app_nil_r.
  - destruct (decide (x ∈ tracked)) as [Hx|Hx]; [by apply IH|].
    rewrite cons_middle, app_assoc. apply IH.
    apply NoDup_app. split_and!; [done| |apply NoDup_singleton].
    intros y Hy ->%list_elem_of_singleton. done.
Qed.


Lemma filter_agree (P Q : Path → Prop)
    `{!∀ x, Decision (P x)} `{!∀ x, Decision (Q x)} (l : list Path) :
  (∀ x, x ∈ l → P x ↔ Q x) → filter P l = filter Q l.
Proof.
  induction l as [|x l IH]; intros Hpq; [done|].
  assert (filter P l = filter Q l) as E.
  { apply IH. intros y Hy. apply Hpq, elem_of_cons. by right. }
  assert (P x ↔ Q x) as Hx by (apply Hpq, elem_of_cons; by left).
  destruct (decide (P x)) as [HP|HP].
  - rewrite !filter_cons_True by tauto. by rewrite E.
  - rewrite !filter_cons_False by tauto. done.
Qed.

(** On an enumeration without repetition the new drives are simply those
    not tracked. *)
Lemma appeared_filter tracked gen :
  NoDup gen → appeared tracked gen = filter (λ d, d ∉ tracked) gen.
Proof.
  revert tracked. induction gen as [|x gen IH]; intros tracked Hnd; simpl; [done|].
  apply NoDup_cons in Hnd as [Hx Hnd].
  destruct (decide (x ∈ tracked)) as [Hin|Hin].
  - rewrite filter_cons_False by tauto. by apply IH.
  - rewrite filter_cons_True by done. f_equal. rewrite IH by done.
    apply filter_agree. intros y Hy.
    rewrite not_elem_of_app, list_elem_of_singleton.
    split; [tauto|]. intros Hy'. split; [done|]. by intros ->.
Qed.

Lemma appeared_all_tracked tracked gen :
  (∀ d, d ∈ gen → d ∈ tracked) → appeared tracked gen = [].
Proof.
  intros Hall. destruct (appeared tracked gen) as [|d l] eqn:E; [done|].
  assert (d ∈ appeared tracked gen) as Hd by (rewrite E; apply elem_of_cons; by left).
  apply appeared_elem_of in Hd as [Hd Hn]. by apply Hall in Hd.
Qed.



Section WithHandler.
Context {H : Type}.
Implicit Types (f : callback H) (cb : option (callback H)) (a : adding H) (w : world H).

Lemma run_all_returns f ds h :
  returns f → run_all f ds h = Some (run_handler f ds h).
Proof.
  intros Hf. revert h. induction ds as [|d ds IH]; intros h; simpl; [done|].
  specialize (Hf d h). destruct (f d h) as [c h'] eqn:E. simpl in Hf. subst c.
  rewrite IH. unfold run_handler. simpl. by rewrite ?E.
Qed.

Lemma add_loop_run_all f gen a h' :
  run_all f (appeared (a_drives a) gen) (a_handler a) = Some h' →
  add_loop (Some f) gen a =
    (Normal,
     Adding (a_drives a ++ appeared (a_drives a) gen) (a_seen a ++ gen) h'
            (a_calls a ++ call_log (a_drives a) (appeared (a_drives a) gen))).
Proof.
  revert a. induction gen as [|d gen IH]; intros [ds seen h log]; simpl.
  - intros [= ->]. by rewrite !app_nil_r.
  - destruct (decide (d ∈ ds)) as [Hd|Hd].
    + intros Hrun. rewrite IH by exact Hrun. simpl. by rewrite <- app_assoc.
    + simpl. destruct (f d h) as [[] h1] eqn:E; [|done..].
      intros Hrun. rewrite IH by exact Hrun. simpl. by rewrite <- !app_assoc.
Qed.

Lemma add_loop_returns f gen a :
  returns f →
  add_loop (Some f) gen a =
    (Normal,
     Adding (a_drives a ++ appeared (a_drives a) gen) (a_seen a ++ gen)
            (run_handler f (appeared (a_drives a) gen) (a_handler a))
            (a_calls a ++ call_log (a_drives a) (appeared (a_drives a) gen))).
Proof. intros Hf. apply add_loop_run_all. by apply run_all_returns. Qed.

Lemma add_loop_no_callback gen a :
  add_loop (H:=H) None gen a =
    (Normal,
     Adding (a_drives a ++ appeared (a_drives a) gen) (a_seen a ++ gen)
            (a_handler a) (a_calls a)).
Proof.
  revert a. induction gen as [|d gen IH]; intros [ds seen h log]; simpl.
  - by rewrite !app_nil_r.
  - destruct (decide (d ∈ ds)) as [Hd|Hd]; rewrite IH; simpl;
      by rewrite <- ?app_assoc.
Qed.

(** Whatever the callback does, the loop only appends drives that were
    not tracked, calls the callback on nothing else, and every call
    finds its drive in [self.drives]. If the loop is left early, the
    call that ended it is the last of the log and its drive is the
    last appended. *)
Lemma add_loop_inv cb gen a c a' :
  add_loop cb gen a = (c, a') →
  ∃ news log,
    a_drives a' = a_drives a ++ news ∧
    a_calls a' = a_calls a ++ log ∧
    sublist news gen ∧
    (NoDup (a_drives a) → NoDup (a_drives a')) ∧
    (∀ d, d ∈ news → d ∉ a_drives a) ∧
    (∀ k, k ∈ log → call_drive k ∈ news ∧ call_drive k ∈ call_tracked k) ∧
    (c ≠ Normal →
       ∃ d, last news = Some d ∧ last log = Some (Call d (a_drives a'))).
Proof.
  revert a. induction gen as [|d gen IH]; intros [ds seen h log0]; simpl.
  - intros [= <- <-]. exists [], []. simpl. rewrite !app_nil_r.
    split_and!; try done; by intros ? ?%elem_of_nil.
  - destruct (decide (d ∈ ds)) as [Hd|Hd].
    + intros Hrec. destruct (IH _ Hrec) as (news & log & ? & ? & ? & ? & ? & ? & ?).
      exists news, log. simpl in *. split_and!; try done. by apply sublist_cons.
    + assert (NoDup ds → NoDup (ds ++ [d])) as Hnd.
      { intros ?. apply NoDup_app. split_and!; [done| |apply NoDup_singleton].
        by intros y Hy ->%list_elem_of_singleton. }
      assert (∀ news : list Path, (∀ x, x ∈ news → x ∉ ds ++ [d]) →
                ∀ x, x ∈ d :: news → x ∉ ds) as Hfresh.
      { intros news Hn x [->|Hx]%elem_of_cons; [done|].
        apply Hn in Hx. by apply not_elem_of_app in Hx as [? _]. }
      destruct cb as [f|].
      * destruct (f d h) as [c0 h'] eqn:E.
        destruct (decide (c0 = Normal)) as [->|Hc0].
        -- intros Hrec. destruct (IH _ Hrec) as (news & log & E1 & E2 & ? & ? & ? & Hlog & Hlast).
           simpl in *. exists (d :: news), (Call d (ds ++ [d]) :: log).
           rewrite E1, E2, <- !app_assoc. simpl. split_and!; try done.
           ++ by apply sublist_skip.
           ++ intros ?. rewrite cons_middle, app_assoc, <- E1. auto.
           ++ by apply Hfresh.
           ++ intros k [->|Hk]%elem_of_cons; simpl.
              ** split; [apply elem_of_cons; by left|].
                 apply elem_of_app; right. by apply list_elem_of_singleton.
              ** destruct (Hlog k Hk). split; [apply elem_of_cons; by right|done].
           ++ intros Hc. destruct (Hlast Hc) as (d' & L1 & L2). exists d'.
              rewrite E1, <- app_assoc in L2. simpl in L2.
              split; [|by rewrite last_cons, L2].
              by rewrite last_cons, L1.
        -- assert ((c, a') = (c0, Adding (ds ++ [d]) seen h' (log0 ++ [Call d (ds ++ [d])]))
                   → ∃ news log,
                       a_drives a' = ds ++ news ∧ a_calls a' = log0 ++ log ∧
                       sublist news (d :: gen) ∧ (NoDup ds → NoDup (a_drives a')) ∧
                       (∀ x, x ∈ news → x ∉ ds) ∧
                       (∀ k, k ∈ log → call_drive k ∈ news ∧ call_drive k ∈ call_tracked k) ∧
                       (c ≠ Normal → ∃ x, last news = Some x ∧ last log = Some (Call x (a_drives a'))))
             as Hgoal.
           { intros [= -> ->]. exists [d], [Call d (ds ++ [d])]. simpl.
             split_and!; try done.
             - apply sublist_skip, sublist_nil_l.
             - by intros x ->%list_elem_of_singleton.
             - intros k ->%list_elem_of_singleton. simpl.
               split; [by apply list_elem_of_singleton|].
               apply elem_of_app; right. by apply list_elem_of_singleton.
             - intros _. by exists d. }
           destruct c0; intros Heq; apply Hgoal; try done; by rewrite <- Heq.
      * intros Hrec. destruct (IH _ Hrec) as (news & log & E1 & E2 & ? & ? & ? & Hlog & Hlast).
        simpl in *. exists (d :: news), log.
        rewrite E1, E2, <- !app_assoc. simpl. split_and!; try done.
        -- by apply sublist_skip.
        -- intros ?. rewrite cons_middle, app_assoc, <- E1. auto.
        -- by apply Hfresh.
        -- intros k Hk. destruct (Hlog k Hk). split; [apply elem_of_cons; by right|done].
        -- intros Hc. destruct (Hlast Hc) as (d' & L1 & L2). exists d'.
           rewrite E1, <- app_assoc in L2. simpl in L2.
           split; [|done]. by rewrite last_cons, L1.
Qed.

(** *** One poll *)

(** [detect_new_drives] always produces a result: the removal loop is
    given enough iterations. *)
Lemma detect_new_drives_total cb gen w :
  ∃ c w', detect_new_drives cb gen w = Some (c, w').
Proof.
  unfold detect_new_drives.
  destruct (add_loop cb gen.1 _) as [c a].
  destruct c; [|by eexists _, _..].
  destruct gen.2; [|by eexists _, _].
  destruct (remove_loop_total (length (a_drives a)) 0 (a_seen a) (a_drives a))
    as [ds ->]; [lia|]. simpl. by eexists _, _.
Qed.

(** What one poll does to the tracked list and to the log, whatever
    the callback and the enumeration do. *)
Lemma detect_new_drives_inv cb gen w c w' :
  detect_new_drives cb gen w = Some (c, w') →
  ∃ news log kept,
    sublist news gen.1 ∧
    (∀ d, d ∈ news → d ∉ drives (self w)) ∧
    calls w' = calls w ++ log ∧
    (∀ k, k ∈ log → call_drive k ∈ news ∧ call_drive k ∈ call_tracked k) ∧
    drives (self w') = kept ∧
    sublist kept (drives (self w) ++ news) ∧
    (NoDup (drives (self w)) → NoDup kept) ∧
    run (self w') = run (self w) ∧
    (c ≠ Normal → kept = drives (self w) ++ news) ∧
    (c ≠ Normal → gen.2 = StopIteration →
       ∃ d, last news = Some d ∧ last log = Some (Call d kept)).
Proof.
  unfold detect_new_drives.
  destruct (add_loop cb gen.1 _) as [c0 a] eqn:Hadd.
  apply add_loop_inv in Hadd as (news & log & E1 & E2 & Hsub & Hnd & Hfresh & Hlog & Hlast).
  simpl in *.
  assert (∀ c1, Some (c1, World (mk (a_drives a) (run (self w))) (a_handler a) (a_calls a))
                  = Some (c, w') →
            (c1 ≠ Normal → gen.2 = StopIteration → c0 ≠ Normal) →
            ∃ news log kept,
              sublist news gen.1 ∧ (∀ d, d ∈ news → d ∉ drives (self w)) ∧
              calls w' = calls w ++ log ∧
              (∀ k, k ∈ log → call_drive k ∈ news ∧ call_drive k ∈ call_tracked k) ∧
              drives (self w') = kept ∧ sublist kept (drives (self w) ++ news) ∧
              (NoDup (drives (self w)) → NoDup kept) ∧
              run (self w') = run (self w) ∧
              (c ≠ Normal → kept = drives (self w) ++ news) ∧
              (c ≠ Normal → gen.2 = StopIteration →
                 ∃ d, last news = Some d ∧ last log = Some (Call d kept))) as Habort.
  { intros c1 [= <- <-] Hc. exists news, log, (a_drives a). simpl.
    rewrite E1 in *. split_and!; try done. intros ? ?. apply Hlast. by apply Hc. }
  destruct c0;
    [|destruct gen.2; intros Heq;
      (eapply Habort; [exact Heq|done])..].
  destruct gen.2 eqn:Hend;
    [|intros Heq; eapply Habort; [exact Heq|congruence]].
  destruct (remove_loop _ _ _ _) as [[c1 ds]|] eqn:Hrm; [|done]. simpl.
  intros [= <- <-].
  destruct (remove_loop_total (length (a_drives a)) 0 (a_seen a) (a_drives a))
    as [ds0 Hds0]; [lia|].
  rewrite Hrm in Hds0. injection Hds0 as -> ->.
  exists news, log, ds0. simpl. rewrite E1 in *.
  split_and!; try done.
  - by eapply remove_loop_sublist.
  - intros ?. eapply sublist_NoDup; [by apply Hnd|]. by eapply remove_loop_sublist.
Qed.

(** When the callback returns from each call on a new drive, a poll
    over a successful enumeration completes: the new drives are
    appended and reported in enumeration order, then the removal loop
    runs on the extended list with the whole enumeration as
    reference. *)
Lemma detect_new_drives_run_all f gen w h' :
  let tracked := drives (self w) in
  let news := appeared tracked gen in
  run_all f news (handler w) = Some h' →
  ∃ kept,
    remove_loop (length (tracked ++ news)) 0 gen (tracked ++ news) = Some (Normal, kept) ∧
    detect_new_drives (Some f) (gen, StopIteration) w =
      Some (Normal, World (mk kept (run (self w))) h'
                          (calls w ++ call_log tracked news)).
Proof.
  intros tracked news Hrun. unfold detect_new_drives. simpl.
  rewrite (add_loop_run_all f gen _ h') by done. simpl.
  destruct (remove_loop_total (length (tracked ++ news)) 0 gen (tracked ++ news))
    as [kept Hkept]; [lia|].
  exists kept. split; [done|]. fold tracked news. by rewrite Hkept.
Qed.

Lemma detect_new_drives_returns f gen w :
  returns f →
  let tracked := drives (self w) in
  let news := appeared tracked gen in
  ∃ kept,
    remove_loop (length (tracked ++ news)) 0 gen (tracked ++ news) = Some (Normal, kept) ∧
    detect_new_drives (Some f) (gen, StopIteration) w =
      Some (Normal, World (mk kept (run (self w)))
                          (run_handler f news (handler w))
                          (calls w ++ call_log tracked news)).
Proof. intros Hf. apply detect_new_drives_run_all. by apply run_all_returns. Qed.

(** A drive that is already tracked is never passed to the callback. *)
Lemma tracked_not_reported cb gen w c w' d :
  d ∈ drives (self w) → detect_new_drives cb gen w = Some (c, w') →
  ∃ log, calls w' = calls w ++ log ∧ ∀ k, k ∈ log → call_drive k ≠ d.
Proof.
  intros Hd Hdet.
  apply detect_new_drives_inv in Hdet
    as (news & log & kept & _ & Hfresh & Hcalls & Hlog & _).
  exists log. split; [done|]. intros k Hk Heq.
  destruct (Hlog k Hk) as [Hin _]. rewrite Heq in Hin. by apply Hfresh in Hin.
Qed.

(** A poll keeps every enumerated drive in the tracked list. *)
Lemma enumerated_tracked cb gen w w' d :
  detect_new_drives cb (gen, StopIteration) w = Some (Normal, w') →
  d ∈ gen → d ∈ drives (self w').
Proof.
  unfold detect_new_drives. simpl.
  destruct (add_loop cb gen _) as [c0 a] eqn:Hadd.
  destruct c0; [|done..].
  destruct (remove_loop _ _ _ _) as [[c1 kept]|] eqn:Hrm; [|done]. simpl.
  intros [= -> <-] Hd. simpl.
  assert (a_seen a = gen ∧ ∀ x, x ∈ gen → x ∈ a_drives a) as [Hseen Hall].
  { clear Hrm Hd. revert Hadd. generalize (handler w) (calls w).
    assert (∀ ds seen h log,
              add_loop cb gen (Adding ds seen h log) = (Normal, a) →
              a_seen a = seen ++ gen ∧ ∀ x, x ∈ ds ∨ x ∈ gen → x ∈ a_drives a) as Hgen.
    { induction gen as [|y gen IH]; intros ds seen h log; simpl.
      - intros [= <-]. simpl. rewrite app_nil_r. split; [done|].
        by intros x [?|?%elem_of_nil].
      - destruct (decide (y ∈ ds)) as [Hy|Hy].
        + intros [E Hin]%IH. rewrite E, <- app_assoc. split; [done|].
          intros x [?|[->|?]%elem_of_cons]; apply Hin; auto.
        + assert (∀ h' log',
                    add_loop cb gen (Adding (ds ++ [y]) (seen ++ [y]) h' log') = (Normal, a) →
                    a_seen a = seen ++ y :: gen ∧
                    ∀ x, x ∈ ds ∨ x ∈ y :: gen → x ∈ a_drives a) as Hstep.
          { intros h' log' [E Hin]%IH. rewrite E, <- app_assoc. split; [done|].
            intros x [?|[->|?]%elem_of_cons]; apply Hin; rewrite ?elem_of_app;
              auto. left. right. by apply list_elem_of_singleton. }
          destruct cb as [f|]; [|apply Hstep].
          destruct (f y h) as [[] h']; [apply Hstep|done..]. }
    intros h log [E Hin]%Hgen. split; [done|]. intros x Hx. apply Hin. by right. }
  eapply remove_loop_keeps; [done| |by apply Hall]. by rewrite Hseen.
Qed.

End WithHandler.

(** *** Enumeration *)

Lemma probe_entries_sublist entries : sublist (probe_entries entries).1 entries.*1.
Proof.
  induction entries as [|[d p] entries IH]; simpl; [done|].
  destruct p; simpl.
  - destruct (probe_entries entries) as [ys e]. simpl in *. by apply sublist_skip.
  - by apply sublist_cons.
  - apply sublist_nil_l.
Qed.

(** When no [is_dir] raises, [find_drives] yields exactly the entries
    that are directories and stops. *)
Lemma probe_entries_ok entries :
  (∀ d, (d, ProbeError) ∉ entries) →
  probe_entries entries = ((filter (λ e, e.2 = IsDir) entries).*1, StopIteration).
Proof.
  induction entries as [|[d p] entries IH]; intros Hok; [done|].
  assert (∀ d, (d, ProbeError) ∉ entries) as Hok'.
  { intros x Hx. apply (Hok x), elem_of_cons. by right. }
  destruct p; cbn [probe_entries].
  - rewrite IH by done. by rewrite filter_cons_True by done.
  - rewrite IH by done. by rewrite filter_cons_False by done.
  - destruct (Hok d). apply elem_of_cons. by left.
Qed.

(** When some [is_dir] raises, the generator yields the directories
    listed before the failing entry and then raises. *)
Lemma probe_entries_error before d after :
  (∀ x, (x, ProbeError) ∉ before) →
  probe_entries (before ++ (d, ProbeError) :: after) =
    ((filter (λ e, e.2 = IsDir) before).*1, GenRaise).
Proof.
  induction before as [|[x p] before IH]; intros Hok; [done|].
  assert (∀ d, (d, ProbeError) ∉ before) as Hok'.
  { intros y Hy. apply (Hok y), elem_of_cons. by right. }
  rewrite <- app_comm_cons. destruct p; cbn [probe_entries].
  - rewrite IH by done. by rewrite filter_cons_True by done.
  - rewrite IH by done. by rewrite filter_cons_False by done.
  - destruct (Hok x). apply elem_of_cons. by left.
Qed.

End FmountFacts.

(** ** Properties of the tracker *)
Module FmountProps.
Import Fmount FmountSpec FmountFacts.

(** C6. The tracked list never holds a drive twice: when the drives
    listed by the OS are distinct, the list built by [__init__] is
    duplicate-free (and [__init__] does build it when no [is_dir]
    raises), and every [detect_new_drives] call, whatever the callback
    and the enumeration do and however the call ends, produces a result
    and turns a duplicate-free tracked list into a duplicate-free one. *)
Theorem tracked_never_duplicated (entries : list (Path * probe)) :
  NoDup entries.*1 →
  (∀ f0, init (Listed entries) = inr f0 → NoDup (drives f0)) ∧
  ((∀ d, (d, ProbeError) ∉ entries) → ∃ f0, init (Listed entries) = inr f0) ∧
  (∀ (H : Type) (cb : option (callback H)) gen (w : world H),
     NoDup (drives (self w)) →
     ∃ c w', detect_new_drives cb gen w = Some (c, w') ∧ NoDup (drives (self w'))).
Proof.
  intros Hnd. split_and!.
  - intros f0. unfold init. simpl.
    pose proof (probe_entries_sublist entries) as Hsub.
    destruct (probe_entries entries) as [ys []]; [|done].
    intros [= <-]. simpl in *. by eapply sublist_NoDup.
  - intros Hok. unfold init. simpl. rewrite probe_entries_ok by done. by eexists.
  - intros H cb gen w Hw.
    destruct (detect_new_drives_total cb gen w) as (c & w' & Hdet).
    exists c, w'. split; [done|].
    apply detect_new_drives_inv in Hdet
      as (news & log & kept & _ & _ & _ & _ & -> & _ & Hkept & _). auto.
Qed.

(** The theorem at work: a baseline of two drives, then a poll in which
    one of them is gone and a new one is present. *)
Lemma tracked_never_duplicated_witness :
  NoDup [("C:/", IsDir); ("D:/", IsDir)].*1 ∧
  ∃ c w',
    detect_new_drives (H:=unit) None (["C:/"; "E:/"], StopIteration)
      (World (mk ["C:/"; "D:/"] true) () []) = Some (c, w') ∧
    NoDup (drives (self w')).
Proof.
  assert (NoDup [("C:/", IsDir); ("D:/", IsDir)].*1) as Hnd.
  { apply (bool_decide_unpack _). vm_compute. exact I. }
  split; [exact Hnd|].
  destruct (tracked_never_duplicated _ Hnd) as (Hinit & _ & Hstep).
  apply Hstep. apply (Hinit (mk ["C:/"; "D:/"] true)). reflexivity.
Defined.

(** C10. In [detect_new_drives] a new drive is appended to the tracked
    list before its callback runs: every call logged during a poll finds
    its own drive in [self.drives]. If the poll over a successful
    enumeration is cut short (the callback raised), the drive whose call
    ended it is still tracked afterwards, and no later poll, whatever it
    enumerates, passes that drive to a callback again; a later poll that
    completes and enumerates the drive keeps it tracked. *)
Theorem appended_before_callback {H : Type} (cb : option (callback H))
    (ys : list Path) (w : world H) c w' :
  detect_new_drives cb (ys, StopIteration) w = Some (c, w') →
  ∃ log,
    calls w' = calls w ++ log ∧
    (∀ k, k ∈ log → (call_drive k ∉ drives (self w)) ∧ call_drive k ∈ call_tracked k) ∧
    (c ≠ Normal →
       ∃ d, last log = Some (Call d (drives (self w'))) ∧
            d ∈ drives (self w') ∧
            ∀ (cb2 : option (callback H)) gen2,
              ∃ c2 w2 log2,
                detect_new_drives cb2 gen2 w' = Some (c2, w2) ∧
                calls w2 = calls w' ++ log2 ∧
                (∀ k, k ∈ log2 → call_drive k ≠ d) ∧
                (c2 = Normal → gen2.2 = StopIteration → d ∈ gen2.1 →
                   d ∈ drives (self w2))).
Proof.
  intros Hdet.
  apply detect_new_drives_inv in Hdet
    as (news & log & kept & _ & Hfresh & Hcalls & Hlog & Hkept & _ & _ & _ & Hfull & Hlast).
  exists log. split_and!; [done| |].
  - intros k Hk. destruct (Hlog k Hk). split; [|done]. by apply Hfresh.
  - intros Hc. destruct (Hlast Hc eq_refl) as (d & Hd & Hl). rewrite Hkept.
    assert (d ∈ kept) as Hin.
    { rewrite (Hfull Hc). apply elem_of_app; right. by eapply last_Some_elem_of. }
    exists d. split_and!; [done..|].
    intros cb2 gen2.
    destruct (detect_new_drives_total cb2 gen2 w') as (c2 & w2 & Hdet2).
    destruct (tracked_not_reported cb2 gen2 w' c2 w2 d) as (log2 & ? & ?);
      [by rewrite Hkept|done|].
    exists c2, w2, log2. split_and!; [done..|].
    intros -> Hend Hd2. destruct gen2 as [ys2 e2]. simpl in *. subst e2.
    by eapply enumerated_tracked.
Qed.

Lemma appended_before_callback_witness :
  let w' := World (mk ["C:/"; "E:/"] true) () [Call "E:/" ["C:/"; "E:/"]] in
  detect_new_drives (Some failing_callback) (["C:/"; "E:/"; "F:/"], StopIteration)
    (World (mk ["C:/"] true) () []) = Some (Raised HandlerError, w') ∧
  ∃ d, d ∈ ["C:/"; "E:/"] ∧
       ∀ (cb2 : option (callback unit)) gen2,
         ∃ c2 w2 log2,
           detect_new_drives cb2 gen2 w' = Some (c2, w2) ∧
           calls w2 = calls w' ++ log2 ∧
           (∀ k, k ∈ log2 → call_drive k ≠ d) ∧
           (c2 = Normal → gen2.2 = StopIteration → d ∈ gen2.1 → d ∈ drives (self w2)).
Proof.
  intros w'. split; [reflexivity|].
  destruct (appended_before_callback (Some failing_callback) ["C:/"; "E:/"; "F:/"]
              (World (mk ["C:/"] true) () []) (Raised HandlerError) w' eq_refl)
    as (log & _ & _ & Hraised).
  destruct Hraised as (d & _ & Hd & Hlater); [discriminate|].
  exists d. split; [exact Hd|exact Hlater].
Defined.

Lemma filter_all (P : Path → Prop) `{!∀ x, Decision (P x)} (l : list Path) :
  (∀ x, x ∈ l → P x) → filter P l = l.
Proof.
  induction l as [|x l IH]; intros Hall; [done|].
  rewrite filter_cons_True by (apply Hall, elem_of_cons; by left).
  f_equal. apply IH. intros y Hy. apply Hall, elem_of_cons. by right.
Qed.


Lemma recording_callback_returns : returns recording_callback.
Proof. intros d h. reflexivity. Qed.


(** When no two neighbours of the extended tracked list are both
    missing from the enumeration, the removal loop misses nothing: the
    poll leaves exactly the enumerated drives tracked. *)
Lemma tracked_exact_when_isolated {H : Type} (f : callback H)
    (gen : list Path) (w : world H) :
  returns f → NoDup (drives (self w)) →
  isolated gen (drives (self w) ++ appeared (drives (self w)) gen) →
  ∃ w', detect_new_drives (Some f) (gen, StopIteration) w = Some (Normal, w') ∧
        drives (self w') =
          filter (λ d, d ∈ gen) (drives (self w)) ++ appeared (drives (self w)) gen ∧
        ∀ d, d ∈ drives (self w') ↔ d ∈ gen.
Proof.
  intros Hf Hnd Hiso.
  destruct (detect_new_drives_returns f gen w Hf) as (kept & Hrm & Hdet).
  set (tracked := drives (self w)) in *. set (news := appeared tracked gen) in *.
  assert (∀ d, d ∈ news → d ∈ gen) as Hnews.
  { intros d Hd. by apply appeared_elem_of in Hd as [? _]. }
  rewrite (remove_loop_sweep _ gen [] (tracked ++ news)) in Hrm;
    [|by apply appeared_NoDup|done].
  injection Hrm as <-. simpl in Hdet.
  rewrite (sweep_isolated gen (tracked ++ news)) in * by done.
  rewrite filter_app, (filter_all _ news) in * by done.
  eexists. split; [exact Hdet|]. simpl. split; [done|].
  intros d. rewrite elem_of_app, list_elem_of_filter. split.
  - intros [[? _]|?]; [done|by apply Hnews].
  - intros Hd. destruct (decide (d ∈ tracked)); [by left|].
    right. by apply appeared_elem_of.
Qed.

(** When two polls in a row enumerate the same drives and the first
    completes, the second calls the callback on nothing. *)
Lemma unchanged_enumeration_no_calls {H : Type} (cb cb2 : option (callback H))
    (gen : list Path) e (w w1 w2 : world H) c2 :
  detect_new_drives cb (gen, StopIteration) w = Some (Normal, w1) →
  detect_new_drives cb2 (gen, e) w1 = Some (c2, w2) →
  calls w2 = calls w1.
Proof.
  intros H1 H2.
  apply detect_new_drives_inv in H2
    as (news & log & kept & Hsub & Hfresh & -> & Hlog & _).
  simpl in Hsub.
  assert (news = []) as ->.
  { destruct news as [|d news]; [done|].
    assert (d ∈ d :: news) as Hd by (apply elem_of_cons; by left).
    destruct (Hfresh d Hd). eapply enumerated_tracked; [done|].
    by eapply elem_of_sublist. }
  destruct log as [|k log]; [by rewrite app_nil_r|].
  destruct (Hlog k) as [Hk _]; [apply elem_of_cons; by left|].
  by apply elem_of_nil in Hk.
Qed.

(** C1. The tracked list after a replay is not always the last
    enumeration. Baseline [D:/; E:/]; the next enumeration is empty
    (both volumes removed together). The removal loop deletes D:/ while
    iterating over the list it is deleting from, so its index skips
    E:/, which stays tracked although absent. When E:/ is enumerated
    again at the following poll it is found in the tracked list and the
    callback is not invoked for this new interval of presence. *)
Theorem stale_entry_after_two_removals :
  let baseline := mk ["D:/"; "E:/"] true in
  let S1 : list Path := [] in
  let S2 : list Path := ["E:/"] in
  init (Listed [("D:/", IsDir); ("E:/", IsDir)]) = inr baseline ∧
  (∃ w1, replay (Some recording_callback) [S1] (World baseline [] []) = Some (Normal, w1) ∧
         drives (self w1) = ["E:/"] ∧ drives (self w1) ≠ S1) ∧
  (∃ w2, replay (Some recording_callback) [S1; S2] (World baseline [] []) = Some (Normal, w2) ∧
         drives (self w2) = S2 ∧ calls w2 = [] ∧ handler w2 = []).
Proof.
  split_and!; [by vm_compute| |].
  - eexists. split_and!; [by vm_compute|done..].
  - eexists. split_and!; [by vm_compute|done..].
Qed.

(** C7. A second poll over an unchanged enumeration can change the
    tracked list. Tracked [D:/; E:/], enumeration empty twice: the first
    poll removes D:/ and its loop index then skips E:/, so it leaves
    [E:/]; the second removes it. Neither poll invokes the callback. *)
Theorem second_poll_changes_tracked :
  let w0 := World (mk ["D:/"; "E:/"] true) [] [] in
  let w1 := World (mk ["E:/"] true) [] [] in
  let w2 := World (mk [] true) [] [] in
  detect_new_drives (Some recording_callback) ([], StopIteration) w0 = Some (Normal, w1) ∧
  detect_new_drives (Some recording_callback) ([], StopIteration) w1 = Some (Normal, w2) ∧
  drives (self w2) ≠ drives (self w1).
Proof. by vm_compute. Qed.

(** C2, as stated, fails. At the first poll [os.listdrives()] raises:
    the exception leaves [detect_new_drives] and then [scan]; the second
    poll, where F:/ is new, never happens. The same holds when [is_dir]
    raises on an entry. Without the failing poll the loop goes on and
    F:/ is reported. *)
Lemma enumeration_error_ends_scan :
  let w0 := World (mk ["C:/"] true) [] [] in
  let later := Listed [("C:/", IsDir); ("F:/", IsDir)] in
  let probe_fails := Listed [("C:/", IsDir); ("E:/", ProbeError)] in
  detect_new_drives (Some recording_callback) (find_drives ListError) w0
    = Some (Raised OSError, w0) ∧
  scan (Some recording_callback) [Tick ListError false; Tick later false] w0
    = Some (Aborted (Raised OSError), w0) ∧
  scan (Some recording_callback) [Tick probe_fails false; Tick later false] w0
    = Some (Aborted (Raised OSError), w0) ∧
  scan (Some recording_callback) [Tick later false] w0
    = Some (Polling, World (mk ["C:/"; "F:/"] true) ["F:/"] [Call "F:/" ["C:/"; "F:/"]]) ∧
  ¬ (∃ w', detect_new_drives (Some recording_callback) (find_drives ListError) w0
             = Some (Normal, w')) ∧
  ¬ (∃ w', scan (Some recording_callback) [Tick ListError false; Tick later false] w0
             = Some (Polling, w')).
Proof.
  split_and!; [by vm_compute..| |].
  - intros [w' Hw']. vm_compute in Hw'. discriminate.
  - intros [w' Hw']. vm_compute in Hw'. discriminate.
Qed.

Lemma find_drives_fails os :
  enumeration_fails os → ∃ ys, find_drives os = (ys, GenRaise).
Proof.
  destruct os as [entries|]; simpl; [|by eexists].
  intros [d Hd]. induction entries as [|[x p] entries IH]; [by apply elem_of_nil in Hd|].
  destruct p; simpl; [| |by eexists].
  - apply elem_of_cons in Hd as [[=]|Hd].
    destruct (IH Hd) as [ys ->]. by eexists.
  - apply elem_of_cons in Hd as [[=]|Hd]. by apply IH.
Qed.

(** C2, amended. An entry for which [is_dir] answers False is skipped
    and the poll completes on the remaining directories. An exception
    raised by the drive query or by [is_dir] is not caught:
    [detect_new_drives] ends with it, the removal loop is skipped (every
    drive tracked before is still tracked), and [scan] ends with the
    same exception without polling again. The drives yielded before the
    failure have been processed: the new ones among them are appended
    and reported to the callback. *)
Theorem enumeration_errors_propagate {H : Type} (f : callback H) (w : world H) :
  returns f → run (self w) = true →
  (∀ entries, (∀ d, (d, ProbeError) ∉ entries) →
     find_drives (Listed entries)
       = ((filter (λ e, e.2 = IsDir) entries).*1, StopIteration) ∧
     ∃ w', detect_new_drives (Some f) (find_drives (Listed entries)) w
             = Some (Normal, w')) ∧
  (∀ os, enumeration_fails os →
     ∃ w', detect_new_drives (Some f) (find_drives os) w = Some (Raised OSError, w') ∧
           (∀ d, d ∈ drives (self w) → d ∈ drives (self w')) ∧
           (∀ stop ticks,
              scan (Some f) (Tick os stop :: ticks) w
                = Some (Aborted (Raised OSError), w')) ∧
           drives (self w')
             = drives (self w) ++ appeared (drives (self w)) (find_drives os).1 ∧
           calls w'
             = calls w ++ call_log (drives (self w))
                            (appeared (drives (self w)) (find_drives os).1)).
Proof.
  intros Hf Hrun. split.
  - intros entries Hok. simpl. rewrite probe_entries_ok by done.
    split; [done|].
    destruct (detect_new_drives_returns f (filter (λ e, e.2 = IsDir) entries).*1 w Hf)
      as (kept & _ & ->). by eexists.
  - intros os [ys Hys]%find_drives_fails. rewrite Hys.
    assert (∃ w', detect_new_drives (Some f) (ys, GenRaise) w = Some (Raised OSError, w') ∧
                  (∀ d, d ∈ drives (self w) → d ∈ drives (self w')) ∧
                  drives (self w') = drives (self w) ++ appeared (drives (self w)) ys ∧
                  calls w' = calls w ++ call_log (drives (self w))
                                          (appeared (drives (self w)) ys))
      as (w' & Hdet & Hkeep & Hdrives & Hcalls).
    { unfold detect_new_drives. simpl. rewrite add_loop_returns by done. simpl.
      eexists. split; [done|]. simpl. split_and!; [|done..].
      intros d Hd. apply elem_of_app. by left. }
    exists w'. split_and!; [done..| |done|done].
    intros stop ticks. simpl. rewrite Hrun. simpl. rewrite Hys, Hdet. done.
Qed.

Lemma enumeration_errors_propagate_witness :
  let w0 := World (mk ["C:/"] true) [] [] in
  (∃ w', detect_new_drives (Some recording_callback)
           (find_drives (Listed [("C:/", IsDir); ("E:/", NotDir)])) w0 = Some (Normal, w')) ∧
  (∃ w', ∀ stop ticks,
           scan (Some recording_callback)
             (Tick (Listed [("C:/", IsDir); ("E:/", ProbeError)]) stop :: ticks) w0
           = Some (Aborted (Raised OSError), w')).
Proof.
  intros w0.
  destruct (enumeration_errors_propagate recording_callback w0
              recording_callback_returns eq_refl) as [Hok Hfail].
  split.
  - apply (Hok [("C:/", IsDir); ("E:/", NotDir)]).
    intros d Hd. apply elem_of_cons in Hd as [[=]|Hd].
    apply list_elem_of_singleton in Hd. discriminate.
  - destruct (Hfail (Listed [("C:/", IsDir); ("E:/", ProbeError)]))
      as (w' & _ & _ & Hscan & _).
    + exists "E:/". apply elem_of_cons; right. apply list_elem_of_singleton. reflexivity.
    + exists w'. exact Hscan.
Defined.

End FmountProps.

(** ** Properties of the orchestrator *)
Module SyncProps.
Import Sync SyncSpec.

(** *** Cleaning the source *)

(** Induction over a tree with the hypothesis available for every child
    of a directory. *)
Lemma entry_tree_ind (P : entry → Prop) :
  P File → P Special →
  (∀ children, Forall (λ c, P c.2) children → P (Dir children)) →
  ∀ p, P p.
Proof.
  intros HF HS HD. fix IH 1. intros [| |children]; [exact HF|exact HS|].
  apply HD. induction children as [|[name child] children IHc].
  - constructor.
  - constructor; [apply IH|exact IHc].
Qed.

(** The loop over the children, when the recursive call empties and
    removes every child directory. *)
Lemma del_children_regular del_child todo nb_files kept :
  Forall (λ c, regular c.2 = true ∧
               (c.2 ≠ File → del_child c.2 = (Normal, count_files c.2, None))) todo →
  del_children del_child todo nb_files kept =
    (Normal, nb_files + sum_list (map (λ c, count_files c.2) todo), kept).
Proof.
  revert nb_files kept. induction todo as [|[name child] more IH];
    intros nb_files kept Hall; simpl.
  - by rewrite Nat.add_0_r.
  - apply Forall_cons in Hall as [[Hreg Hchild] Hall]. simpl in *.
    destruct child as [| |children].
    + rewrite IH by done. f_equal. f_equal. simpl. lia.
    + done.
    + rewrite Hchild by done. rewrite IH by done. f_equal. f_equal. lia.
Qed.

Lemma del_tree_regular p :
  regular p = true → p ≠ File →
  (∀ level, del_tree (S level) p = (Normal, count_files p, None)) ∧
  del_tree 0 p = (Normal, count_files p, Some (Dir [])).
Proof.
  induction p as [| |children IH] using entry_tree_ind; [done..|].
  intros Hreg _.
  assert (∀ level,
            del_children (del_tree (S level)) children 0 [] =
              (Normal, count_files (Dir children), [])) as Hloop.
  { intros level. rewrite del_children_regular; [done|].
    simpl in Hreg. rewrite forallb_forall in Hreg.
    apply Forall_forall. intros [name child] Hin.
    rewrite Forall_forall in IH. specialize (IH _ Hin).
    apply list_elem_of_In in Hin. specialize (Hreg _ Hin). simpl in *.
    split; [done|]. intros Hne. by apply IH. }
  split; [intros level|]; cbn [del_tree]; by rewrite Hloop.
Qed.

(** C3. On a directory whose tree holds only regular files and
    directories, N files and M directories in all, [del_tree] returns
    N and leaves the directory itself in place with nothing in it: no
    file and no subdirectory remains. *)
Theorem del_tree_empties_source (children : list (string * entry)) (N M : nat) :
  regular (Dir children) = true →
  count_files (Dir children) = N →
  count_dirs (Dir children) = M →
  ∃ remaining,
    del_tree 0 (Dir children) = (Normal, N, Some remaining) ∧
    remaining = Dir [] ∧ count_files remaining = 0 ∧ count_dirs remaining = 0.
Proof.
  intros Hreg <- _. exists (Dir []).
  destruct (del_tree_regular (Dir children) Hreg) as [_ ->]; done.
Qed.

Lemma del_tree_empties_source_witness :
  let dcim := [("a.jpg", File);
               ("100CANON", Dir [("b.jpg", File); ("c.jpg", File); ("empty", Dir [])]);
               ("z.mov", File)] in
  count_files (Dir dcim) = 4 ∧ count_dirs (Dir dcim) = 2 ∧
  ∃ remaining,
    del_tree 0 (Dir dcim) = (Normal, 4, Some remaining) ∧
    remaining = Dir [] ∧ count_files remaining = 0 ∧ count_dirs remaining = 0.
Proof.
  intros dcim. split; [reflexivity|]. split; [reflexivity|].
  apply (del_tree_empties_source dcim 4 2); reflexivity.
Defined.

(** *** The configuration store *)

(** On a value that [set] accepts, [set_settings] stores the value and
    rewrites the file with the whole configuration. *)
Lemma set_settings_spec key value a :
  valid_syntax value = true →
  set_settings key value a =
    (inr (), mkApp (updated key value (config a)) (Some (updated key value (config a)))
                   (S (writes a)) (ui a) (fs a)).
Proof.
  intros Hvalid.
  unfold set_settings, bind, gets, modify, ret, raise, has_section, cp_set, updated.
  rewrite Hvalid.
  destruct (config a !! "Settings") as [opts|] eqn:E.
  - rewrite bool_decide_eq_true_2 by by eexists. simpl. by rewrite E.
  - rewrite bool_decide_eq_false_2 by (by intros [? ?]). simpl.
    unfold add_section. rewrite lookup_insert_eq. simpl.
    unfold write_ini, with_config. simpl. by rewrite insert_insert_eq.
Qed.

(** On a value that [set] rejects, ValueError leaves [set_settings]
    after the section was made sure of and before anything is stored or
    written. *)
Lemma set_settings_rejected key value a :
  valid_syntax value = false →
  set_settings key value a = (inl ValueError, section_ensured a).
Proof.
  intros Hbad.
  unfold set_settings, section_ensured, bind, gets, modify, ret, raise, cp_set.
  rewrite Hbad. by destruct (has_section "Settings" (config a)).
Qed.

Lemma section_ensured_cp_get a section key :
  cp_get section key (config (section_ensured a)) = cp_get section key (config a).
Proof.
  unfold section_ensured, has_section, add_section, cp_get.
  destruct (bool_decide (is_Some (config a !! "Settings"))) eqn:Hb; [done|].
  apply bool_decide_eq_false_1 in Hb. simpl.
  destruct (decide (section = "Settings")) as [->|Hne].
  - rewrite lookup_insert_eq. destruct (config a !! "Settings") eqn:E; [|done].
    destruct Hb. by eexists.
  - by rewrite lookup_insert_ne.
Qed.

(** A value without a percent sign is accepted by [set]. *)
Lemma percent_free_valid value : percent_free value = true → valid_syntax value = true.
Proof.
  unfold valid_syntax. intros Hfree.
  assert (drop_escaped value = value) as ->.
  { induction value as [|c rest IH]; [done|]. simpl in Hfree.
    apply andb_true_iff in Hfree as [Hc Hrest]. apply negb_true_iff in Hc.
    cbn [drop_escaped]. destruct rest as [|c' rest']; [done|].
    rewrite Hc. cbn [andb]. by rewrite IH. }
  induction value as [|c rest IH]; [done|]. simpl in Hfree.
  apply andb_true_iff in Hfree as [Hc Hrest]. apply negb_true_iff in Hc.
  cbn [only_keys]. rewrite Hc. by apply IH.
Qed.

Lemma cp_get_updated key value c :
  cp_get "Settings" key (updated key value c) = Some value.
Proof. unfold cp_get, updated. by rewrite !lookup_insert_eq. Qed.

Lemma cp_get_updated_ne key key' value c :
  key ≠ key' → cp_get "Settings" key' (updated key value c) = cp_get "Settings" key' c.
Proof.
  intros Hne. unfold cp_get, updated. rewrite lookup_insert_eq.
  rewrite lookup_insert_ne by done. by destruct (c !! "Settings").
Qed.

(** Reloading a file that was written gives back the configuration
    that was written. *)
Lemma read_ini_updated key value c :
  read_ini (Some (updated key value c)) = updated key value c.
Proof.
  unfold read_ini, has_section, updated.
  rewrite bool_decide_eq_true_2; [done|]. rewrite lookup_insert_eq. by eexists.
Qed.

(** C4, as stated, fails for [local_folder]: read while unset it
    returns None, no default, and nothing is written. *)
Lemma local_folder_not_defaulted :
  let a0 := mkApp ∅ None 0 [] ∅ in
  cp_get "Settings" "local_folder" (config a0) = None ∧
  local_folder a0 = (inr None, a0) ∧
  cp_get "Settings" "local_folder" (config (local_folder a0).2) = None ∧
  ini_file (local_folder a0).2 = None ∧
  writes (local_folder a0).2 = 0.
Proof. by vm_compute. Qed.

Section Defaults.
Variable float_of_str : string → option pyfloat.
Variable str_of_float : pyfloat → string.
(** [str(1.0) == "1.0"] and [float("1.0") == 1.0]. *)
Hypothesis str_default : str_of_float default_sync_interval = "1.0".
Hypothesis float_default : float_of_str "1.0" = Some default_sync_interval.

(** C4, amended. Reading [remote_path], [icon_path] or
    [sync_interval] while unset returns the default ("DCIM",
    "icon.png", 1.0), stores it under its key and rewrites the file
    once; reading it again, also from a configuration reloaded from
    the file, returns the same value and changes nothing. Reading
    [local_folder] while unset returns None and changes nothing. *)
Theorem unset_fields_defaulted (a : App) :
  (cp_get "Settings" "remote_path" (config a) = None →
     let a' := defaulted "remote_path" "DCIM" a in
     remote_path a = (inr "DCIM", a') ∧
     cp_get "Settings" "remote_path" (config a') = Some "DCIM" ∧
     ini_file a' = Some (config a') ∧ writes a' = S (writes a) ∧
     remote_path a' = (inr "DCIM", a') ∧
     read_ini (ini_file a') = config a') ∧
  (cp_get "Settings" "icon_path" (config a) = None →
     let a' := defaulted "icon_path" "icon.png" a in
     icon_path a = (inr "icon.png", a') ∧
     cp_get "Settings" "icon_path" (config a') = Some "icon.png" ∧
     ini_file a' = Some (config a') ∧ writes a' = S (writes a) ∧
     icon_path a' = (inr "icon.png", a') ∧
     read_ini (ini_file a') = config a') ∧
  (cp_get "Settings" "sync_interval" (config a) = None →
     let a' := defaulted "sync_interval" "1.0" a in
     sync_interval float_of_str str_of_float a = (inr (Finite 1.0%Q), a') ∧
     cp_get "Settings" "sync_interval" (config a') = Some "1.0" ∧
     ini_file a' = Some (config a') ∧ writes a' = S (writes a) ∧
     sync_interval float_of_str str_of_float a' = (inr (Finite 1.0%Q), a') ∧
     read_ini (ini_file a') = config a') ∧
  (cp_get "Settings" "local_folder" (config a) = None →
     local_folder a = (inr None, a)).
Proof.
  split_and!.
  - intros Hunset a'.
    assert (cp_get "Settings" "remote_path" (config a') = Some "DCIM") as Hset
      by apply cp_get_updated.
    split_and!; [|done..| |apply read_ini_updated].
    + unfold remote_path, bind, gets, ret. rewrite Hunset.
      by rewrite set_settings_spec by done.
    + unfold remote_path, bind, gets, ret. by rewrite Hset.
  - intros Hunset a'.
    assert (cp_get "Settings" "icon_path" (config a') = Some "icon.png") as Hset
      by apply cp_get_updated.
    split_and!; [|done..| |apply read_ini_updated].
    + unfold icon_path, bind, gets, ret. rewrite Hunset.
      by rewrite set_settings_spec by done.
    + unfold icon_path, bind, gets, ret. by rewrite Hset.
  - intros Hunset a'.
    assert (cp_get "Settings" "sync_interval" (config a') = Some "1.0") as Hset
      by apply cp_get_updated.
    split_and!; [|done..| |apply read_ini_updated].
    + unfold sync_interval, getfloat, bind, gets, ret. rewrite Hunset.
      rewrite str_default. by rewrite set_settings_spec by done.
    + unfold sync_interval, getfloat, bind, gets, ret. rewrite Hset.
      by rewrite float_default.
  - intros Hunset. unfold local_folder, gets. by rewrite Hunset.
Qed.
End Defaults.

Lemma unset_fields_defaulted_witness :
  let a0 := mkApp ∅ None 0 [] ∅ in
  let a1 := defaulted "sync_interval" "1.0" a0 in
  sync_interval float_of_str_1_0 str_of_float_1_0 a0 = (inr (Finite 1.0%Q), a1) ∧
  sync_interval float_of_str_1_0 str_of_float_1_0 a1 = (inr (Finite 1.0%Q), a1) ∧
  remote_path a1 = (inr "DCIM", defaulted "remote_path" "DCIM" a1) ∧
  icon_path a1 = (inr "icon.png", defaulted "icon_path" "icon.png" a1) ∧
  local_folder a1 = (inr None, a1).
Proof.
  intros a0 a1.
  destruct (unset_fields_defaulted float_of_str_1_0 str_of_float_1_0
              eq_refl eq_refl a0) as (_ & _ & Hsync & _).
  destruct (unset_fields_defaulted float_of_str_1_0 str_of_float_1_0
              eq_refl eq_refl a1) as (Hremote & Hicon & _ & Hlocal).
  destruct (Hsync eq_refl) as (H1 & _ & _ & _ & H2 & _).
  destruct (Hremote eq_refl) as (H3 & _).
  destruct (Hicon eq_refl) as (H4 & _).
  split; [exact H1|]. split; [exact H2|]. split; [exact H3|].
  split; [exact H4|]. apply Hlocal. reflexivity.
Defined.

(** *** The detection handler *)

Lemma shown_shown e1 e2 a : shown e2 (shown e1 a) = shown (e1 ++ e2) a.
Proof. unfold shown. simpl. by rewrite <- app_assoc. Qed.

Lemma ui_sync_drive_invalid env drive sleep budget ans script a :
  invalid_choice ans →
  ui_sync_drive env drive sleep (S budget) (ans :: script) a =
    ui_sync_drive env drive (Some 0.0%Q) budget script
      (shown [Sleep (default sleep_before_sync sleep);
              PopupGetFolder (cp_get "Settings" "local_folder" (config a));
              PopupError] a).
Proof.
  intros [Ht Hv]. cbn [ui_sync_drive]. rewrite Ht, Hv.
  f_equal. unfold shown, emit. simpl. by rewrite <- !app_assoc.
Qed.

Lemma ui_sync_drive_invalid_at_limit env drive sleep ans script a :
  invalid_choice ans →
  ui_sync_drive env drive sleep 0 (ans :: script) a =
    (Raised RecursionError, script,
     shown [Sleep (default sleep_before_sync sleep);
            PopupGetFolder (cp_get "Settings" "local_folder" (config a));
            PopupError] a).
Proof.
  intros [Ht Hv]. cbn [ui_sync_drive]. rewrite Ht, Hv.
  do 2 f_equal. unfold shown, emit. simpl. by rewrite <- !app_assoc.
Qed.

(** Invalid answers within the recursion budget: each costs one nested
    call. *)
Lemma ui_sync_drive_retries env drive sleep budget ans more rest a :
  Forall invalid_choice (ans :: more) → S (length more) ≤ budget →
  ui_sync_drive env drive sleep budget ((ans :: more) ++ rest) a =
    ui_sync_drive env drive (Some 0.0%Q) (budget - S (length more)) rest
      (shown (retry_events (default sleep_before_sync sleep)
                (cp_get "Settings" "local_folder" (config a)) (S (length more))) a).
Proof.
  revert sleep budget ans a.
  induction more as [|ans2 more IH]; intros sleep budget ans a Hall Hlen.
  - apply Forall_cons in Hall as [Hans _]. simpl app.
    destruct budget as [|budget]; [simpl in Hlen; lia|].
    rewrite ui_sync_drive_invalid by done. simpl. by rewrite Nat.sub_0_r.
  - apply Forall_cons in Hall as [Hans Hall].
    destruct budget as [|budget]; [simpl in Hlen; lia|].
    rewrite <- app_comm_cons, ui_sync_drive_invalid by done.
    rewrite IH by (done || (simpl in Hlen; lia)). by rewrite shown_shown.
Qed.

(** More invalid answers in a row than the budget allows: the nested
    call beyond the budget raises RecursionError and the answers not yet
    read are left. *)
Lemma ui_sync_drive_overflow env drive sleep budget ans more rest a :
  Forall invalid_choice (ans :: more) → length more = budget →
  ui_sync_drive env drive sleep budget ((ans :: more) ++ rest) a =
    (Raised RecursionError, rest,
     shown (retry_events (default sleep_before_sync sleep)
              (cp_get "Settings" "local_folder" (config a)) (S budget)) a).
Proof.
  revert sleep budget ans a.
  induction more as [|ans2 more IH]; intros sleep budget ans a Hall Hlen.
  - apply Forall_cons in Hall as [Hans _]. simpl in Hlen. subst budget. simpl app.
    by rewrite ui_sync_drive_invalid_at_limit.
  - apply Forall_cons in Hall as [Hans Hall]. simpl in Hlen. subst budget.
    rewrite <- app_comm_cons, ui_sync_drive_invalid by done.
    rewrite IH by done. by rewrite shown_shown.
Qed.

Lemma ui_sync_drive_blocked env drive sleep budget a :
  ui_sync_drive env drive sleep budget [] a =
    (Blocked, [],
     shown [Sleep (default sleep_before_sync sleep);
            PopupGetFolder (cp_get "Settings" "local_folder" (config a))] a).
Proof.
  destruct budget; simpl; do 2 f_equal; unfold shown, emit; simpl;
    by rewrite <- !app_assoc.
Qed.

Lemma ui_sync_drive_cancelled env drive sleep budget ans script a :
  cancelled ans →
  ui_sync_drive env drive sleep budget (ans :: script) a =
    (Normal, script,
     shown [Sleep (default sleep_before_sync sleep);
            PopupGetFolder (cp_get "Settings" "local_folder" (config a))] a).
Proof.
  intros Hc. destruct budget; cbn [ui_sync_drive]; rewrite Hc;
    do 2 f_equal; unfold shown, emit; simpl; by rewrite <- !app_assoc.
Qed.

(** [del_tree] on the source touches the source directory only. *)
Lemma del_tree_at_frame source a r a' :
  del_tree_at source a = (r, a') →
  config a' = config a ∧ ui a' = ui a.
Proof.
  unfold del_tree_at, bind, gets, modify, ret, raise.
  destruct (fs a !! source) as [p|]; [|by intros [= <- <-]].
  destruct (del_tree 0 p) as [[c n] remaining].
  destruct c; intros [= <- <-]; done.
Qed.

(** With a target folder configured, [sync_drive] hands the source
    and that folder to [dirsync.sync], and keeps the folder configured
    whatever happens next. *)
Lemma sync_drive_runs env drive a f :
  cp_get "Settings" "local_folder" (config a) = Some f →
  ∃ r a' remote more_ui,
    sync_drive env drive a = (r, a') ∧
    cp_get "Settings" "local_folder" (config a') = Some f ∧
    ui a' = ui a ++ Dirsync (drive, remote) f :: more_ui.
Proof.
  intros Hf.
  assert (∃ remote a1, remote_path a = (inr remote, a1) ∧ ui a1 = ui a ∧
            cp_get "Settings" "local_folder" (config a1) = Some f)
    as (remote & a1 & Hremote & Hui & Hf1).
  { unfold remote_path, bind, gets, ret.
    destruct (cp_get "Settings" "remote_path" (config a)) as [r|]; [by eexists _, _|].
    rewrite set_settings_spec by done. eexists _, _. split_and!; [done..|].
    simpl. by rewrite cp_get_updated_ne. }
  unfold sync_drive, bind. rewrite Hremote.
  unfold local_folder, gets. rewrite Hf1. unfold modify, raise, ret.
  destruct (dirsync_result env) as [e|copied].
  { eexists _, _, remote, []. split_and!; [done..|]. simpl. by rewrite Hui. }
  destruct (popup_ok_cancel_is_ok env).
  2:{ eexists _, _, remote, [_]. split_and!; [done..|]. simpl.
      by rewrite Hui, <- app_assoc. }
  destruct (del_tree_at (drive, remote) _) as [[e|nb] a2] eqn:Hdel;
    apply del_tree_at_frame in Hdel as [Hc2 Hu2]; simpl in Hc2, Hu2.
  - eexists _, _, remote, [_]. split_and!; [done| |].
    + by rewrite Hc2.
    + by rewrite Hu2, Hui, <- app_assoc.
  - eexists _, _, remote, [_; _]. split_and!; [done| |]; simpl.
    + by rewrite Hc2.
    + by rewrite Hu2, Hui, <- !app_assoc.
Qed.

Lemma ui_sync_drive_valid env drive sleep budget ans f script a :
  valid_choice ans f → percent_free f = true →
  ∃ c a' remote more_ui,
    ui_sync_drive env drive sleep budget (ans :: script) a = (c, script, a') ∧
    cp_get "Settings" "local_folder" (config a') = Some f ∧
    ui a' = ui a ++ [Sleep (default sleep_before_sync sleep);
                     PopupGetFolder (cp_get "Settings" "local_folder" (config a));
                     Dirsync (drive, remote) f] ++ more_ui.
Proof.
  intros (Hf & Hne & Hv) Hfree.
  assert (∀ b, ui_sync_drive env drive sleep b (ans :: script) a
               = ui_sync_drive env drive sleep 0 (ans :: script) a) as Hb.
  { intros b. destruct b; cbn [ui_sync_drive]; by rewrite Hf, Hv. }
  rewrite Hb. clear Hb.
  cbn [ui_sync_drive]. rewrite Hf, Hv. simpl truthy.
  rewrite bool_decide_eq_false_2 by done. simpl negb. cbv iota.
  set (a0 := emit _ (emit _ a)).
  assert (ui a0 = ui a ++ [Sleep (default sleep_before_sync sleep);
                           PopupGetFolder (cp_get "Settings" "local_folder" (config a))])
    as Hui0 by (unfold a0, emit; simpl; by rewrite <- app_assoc).
  assert (∃ r0 a1, ((current ←ₘ local_folder;
                     (if bool_decide (Some f = current) then ret ()
                      else set_local_folder (default "" (Some f))) ;ₘ ret ()) a0)
                   = (inr r0, a1) ∧ ui a1 = ui a0 ∧
                   cp_get "Settings" "local_folder" (config a1) = Some f)
    as (r0 & a1 & Hpre & Hui1 & Hf1).
  { unfold bind, local_folder, gets, ret.
    destruct (decide (Some f = cp_get "Settings" "local_folder" (config a0))) as [E|E].
    - rewrite bool_decide_eq_true_2 by done. by eexists _, _.
    - rewrite bool_decide_eq_false_2 by done. unfold set_local_folder.
      rewrite set_settings_spec by by apply percent_free_valid.
      eexists _, _. split_and!; [done..|].
      simpl. apply cp_get_updated. }
  destruct (sync_drive_runs (env drive) drive a1 f Hf1)
    as (r & a2 & remote & more_ui & Hsync & Hf2 & Hui2).
  assert ((current ←ₘ local_folder;
           (if bool_decide (Some f = current) then ret ()
            else set_local_folder (default "" (Some f))) ;ₘ
           sync_drive (env drive) drive) a0 = (r, a2)) as Hbody.
  { revert Hpre. unfold bind, local_folder, gets, ret.
    destruct (bool_decide _).
    - intros [= _ <-]. exact Hsync.
    - destruct (set_local_folder _ _) as [[e|[]] a3]; [done|].
      intros [= _ <-]. exact Hsync. }
  rewrite Hbody.
  exists (match r with inr _ => Normal | inl e => Raised e end), a2, remote, more_ui.
  split_and!; [by destruct r|done|].
  rewrite Hui2, Hui1, Hui0, <- app_assoc. done.
Qed.

Lemma retry_events_no_dirsync first lf n source target :
  Dirsync source target ∉ retry_events first lf n.
Proof.
  revert first. induction n as [|n IH]; intros first Hin; simpl in Hin.
  - by apply elem_of_nil in Hin.
  - repeat (apply elem_of_cons in Hin as [Hin|Hin]; [discriminate|]).
    by eapply IH.
Qed.

(** C8, as stated, fails: the retry does not repeat indefinitely. Each
    retry is a nested call of [ui_sync_drive]; with room for 990 nested
    calls under the interpreter's recursion limit (1000 frames by
    default), the 991st invalid answer in a row ends the handler with
    RecursionError: the prompt is not shown again and the cancel the
    user would have given next is never read. *)
Lemma retry_stops_at_recursion_limit :
  let env := λ _ : Path, SyncEnv (inr 3) false in
  let a0 := mkApp ∅ None 0 [] ∅ in
  let picked_file := Answer (Some "C:/photo.jpg") false true in
  let cancel := Answer None false false in
  let r := ui_sync_drive env "E:/" None 990 (replicate 991 picked_file ++ [cancel]) a0 in
  r.1.1 = Raised RecursionError ∧
  r.1.2 = [cancel] ∧
  r.2 = shown (retry_events sleep_before_sync None 991) a0 ∧
  r.1.1 ≠ Normal ∧ r.1.1 ≠ Blocked.
Proof.
  intros env a0 picked_file cancel r.
  assert (r = (Raised RecursionError, [cancel],
               shown (retry_events sleep_before_sync None 991) a0)) as ->.
  { unfold r. change (replicate 991 picked_file)
      with (picked_file :: replicate 990 picked_file).
    apply ui_sync_drive_overflow; [|by rewrite length_replicate].
    apply Forall_cons. split; [done|]. apply Forall_replicate. done. }
  split_and!; done.
Qed.

(** C8, amended. When the user answers the folder prompt with a path
    that is not an existing directory, once or several times in a row,
    each such answer shows the error popup and the prompt comes back
    after a sleep of 0.0 seconds, through one more nested call; through
    all these rounds the configuration, the ini file and the write count
    stay as they were and [dirsync.sync] is not called. While the number
    of such answers is within the nested calls the interpreter allows,
    what follows is one more run of the handler with sleep 0.0 on the
    remaining answers: with no answer yet, the prompt is up and the
    handler waits; on a cancel it returns without doing more; on an
    existing directory whose name holds no percent sign it configures
    that directory and hands it to [dirsync.sync]. When there are more,
    the nested call beyond the limit raises RecursionError, which leaves
    the handler with the later answers unread. *)
Theorem invalid_folder_retried (env : Path → sync_env) (drive : Path)
    (sleep : option Q) (budget : nat) (ans : answer) (more rest : list answer)
    (a : App) :
  Forall invalid_choice (ans :: more) →
  let n := S (length more) in
  let first := default sleep_before_sync sleep in
  let lf := cp_get "Settings" "local_folder" (config a) in
  let rounds := retry_events first lf n in
  let prompt := [Sleep 0.0%Q; PopupGetFolder lf] in
  let run := ui_sync_drive env drive sleep budget ((ans :: more) ++ rest) a in
  config (shown rounds a) = config a ∧
  ini_file (shown rounds a) = ini_file a ∧
  writes (shown rounds a) = writes a ∧
  (∀ source target, Dirsync source target ∉ rounds ++ prompt) ∧
  (n ≤ budget →
     run = ui_sync_drive env drive (Some 0.0%Q) (budget - n) rest (shown rounds a) ∧
     (rest = [] → run = (Blocked, [], shown (rounds ++ prompt) a)) ∧
     (∀ last rest', rest = last :: rest' → cancelled last →
        run = (Normal, rest', shown (rounds ++ prompt) a)) ∧
     (∀ last rest' f, rest = last :: rest' → valid_choice last f →
        percent_free f = true →
        ∃ c a' remote more_ui,
          run = (c, rest', a') ∧
          cp_get "Settings" "local_folder" (config a') = Some f ∧
          ui a' = ui a ++ rounds ++ prompt ++ [Dirsync (drive, remote) f] ++ more_ui)) ∧
  (budget < n →
     ∃ unread,
       (ans :: more) ++ rest = take (S budget) (ans :: more) ++ unread ∧
       run = (Raised RecursionError, unread,
              shown (retry_events first lf (S budget)) a) ∧
       config (shown (retry_events first lf (S budget)) a) = config a ∧
       writes (shown (retry_events first lf (S budget)) a) = writes a ∧
       ∀ source target, Dirsync source target ∉ retry_events first lf (S budget)).
Proof.
  intros Hall n first lf rounds prompt run.
  split_and!; [done..| | |].
  - intros source target Hin. apply elem_of_app in Hin as [Hin|Hin].
    + by apply retry_events_no_dirsync in Hin.
    + repeat (apply elem_of_cons in Hin as [Hin|Hin]; [discriminate|]).
      by apply elem_of_nil in Hin.
  - intros Hle.
    assert (run = ui_sync_drive env drive (Some 0.0%Q) (budget - n) rest (shown rounds a))
      as Hrun by by apply ui_sync_drive_retries.
    split_and!; [exact Hrun| | |].
    + intros ->. rewrite Hrun, ui_sync_drive_blocked. by rewrite shown_shown.
    + intros last rest' -> Hc. rewrite Hrun, ui_sync_drive_cancelled by done.
      by rewrite shown_shown.
    + intros last rest' f -> Hv Hfree.
      destruct (ui_sync_drive_valid env drive (Some 0.0%Q) (budget - n) last f rest'
                  (shown rounds a) Hv Hfree)
        as (c & a' & remote & more_ui & Hgo & Hf & Hui).
      exists c, a', remote, more_ui. rewrite Hrun. split_and!; [done..|].
      rewrite Hui. simpl. by rewrite <- !app_assoc.
  - intros Hlt.
    assert (S budget ≤ length (ans :: more)) as Hlen by (simpl; unfold n in Hlt; lia).
    exists (drop (S budget) (ans :: more) ++ rest).
    assert ((ans :: more) ++ rest
            = take (S budget) (ans :: more) ++ drop (S budget) (ans :: more) ++ rest) as Hsplit
      by by rewrite app_assoc, take_drop.
    split_and!; [exact Hsplit| |done..|intros ? ?; apply retry_events_no_dirsync].
    unfold run. rewrite Hsplit.
    destruct (take (S budget) (ans :: more)) as [|ans1 more1] eqn:Htake.
    { apply (f_equal length) in Htake. rewrite length_take in Htake. simpl in *. lia. }
    assert (length more1 = budget) as Hmore1.
    { apply (f_equal length) in Htake. rewrite length_take in Htake. simpl in *. lia. }
    apply ui_sync_drive_overflow; [|done].
    rewrite <- Htake. by apply Forall_take.
Qed.

Lemma invalid_folder_retried_witness :
  let env := λ _ : Path, SyncEnv (inr 3) false in
  let a0 := mkApp ∅ None 0 [] ∅ in
  let picked_file := Answer (Some "C:/photo.jpg") false true in
  let picked_missing := Answer (Some "C:/nowhere") false false in
  ui_sync_drive env "E:/" None 5 [picked_file; picked_missing; Answer None false false] a0
    = (Normal, [],
       shown [Sleep 2.0%Q; PopupGetFolder None; PopupError;
              Sleep 0.0%Q; PopupGetFolder None; PopupError;
              Sleep 0.0%Q; PopupGetFolder None] a0) ∧
  ui_sync_drive env "E:/" None 1 [picked_file; picked_missing; Answer None false false] a0
    = (Raised RecursionError, [Answer None false false],
       shown [Sleep 2.0%Q; PopupGetFolder None; PopupError;
              Sleep 0.0%Q; PopupGetFolder None; PopupError] a0).
Proof.
  intros env a0 picked_file picked_missing. split.
  - destruct (invalid_folder_retried env "E:/" None 5 picked_file [picked_missing]
                [Answer None false false] a0) as (_ & _ & _ & _ & Hwithin & _).
    + repeat constructor.
    + destruct Hwithin as (_ & _ & Hcancel & _); [simpl; lia|].
      apply (Hcancel (Answer None false false) []); reflexivity.
  - destruct (invalid_folder_retried env "E:/" None 1 picked_file [picked_missing]
                [Answer None false false] a0) as (_ & _ & _ & _ & _ & Hbeyond).
    + repeat constructor.
    + destruct Hbeyond as (unread & Hsplit & Hrun & _); [simpl; lia|].
      simpl in Hsplit. injection Hsplit as <-. exact Hrun.
Defined.

(** C9. When the user cancels the folder prompt the handler returns
    normally having only slept and shown the prompt: no error popup, no
    call to [dirsync.sync], the configuration, the ini file and the
    write count unchanged. Run as the callback of a poll in which
    [d] is the one new drive, the poll completes with [d] tracked, and
    no later poll, whatever it enumerates and whatever its callback,
    reports [d] again; a later poll that completes and enumerates [d]
    keeps it tracked. *)
Theorem cancelled_prompt_is_silent (env : Path → sync_env) (budget : nat)
    (w : Fmount.world callback_state) (gen : list Path) (d : Path)
    (ans : answer) (rest : list answer) (a : App) :
  cancelled ans →
  Fmount.handler w = (a, ans :: rest) →
  FmountSpec.appeared (Fmount.drives (Fmount.self w)) gen = [d] →
  let lf := cp_get "Settings" "local_folder" (config a) in
  let a' := shown [Sleep sleep_before_sync; PopupGetFolder lf] a in
  ui_sync_drive env d None budget (ans :: rest) a = (Normal, rest, a') ∧
  config a' = config a ∧ ini_file a' = ini_file a ∧ writes a' = writes a ∧
  ∃ kept,
    let w' := Fmount.World (Fmount.mk kept (Fmount.run (Fmount.self w))) (a', rest)
                (Fmount.calls w ++
                   [Fmount.Call d (Fmount.drives (Fmount.self w) ++ [d])]) in
    Fmount.detect_new_drives (Some (ui_sync_drive_callback env budget))
      (gen, Fmount.StopIteration) w = Some (Normal, w') ∧
    d ∈ kept ∧
    ∀ (cb2 : option (Fmount.callback callback_state)) gen2,
      ∃ c2 w2 log2,
        Fmount.detect_new_drives cb2 gen2 w' = Some (c2, w2) ∧
        Fmount.calls w2 = Fmount.calls w' ++ log2 ∧
        (∀ k, k ∈ log2 → Fmount.call_drive k ≠ d) ∧
        (c2 = Normal → gen2.2 = Fmount.StopIteration → d ∈ gen2.1 →
           d ∈ Fmount.drives (Fmount.self w2)).
Proof.
  intros Hc Hw Hnew lf a'.
  assert (ui_sync_drive env d None budget (ans :: rest) a = (Normal, rest, a')) as Hrun
    by by apply ui_sync_drive_cancelled.
  split_and!; [done..|].
  destruct (FmountFacts.detect_new_drives_run_all
              (ui_sync_drive_callback env budget) gen w (a', rest)) as (kept & _ & Hdet).
  { rewrite Hnew, Hw. cbn [FmountSpec.run_all].
    unfold ui_sync_drive_callback. by rewrite Hrun. }
  rewrite Hnew in Hdet. simpl in Hdet.
  exists kept. simpl. split; [exact Hdet|].
  assert (d ∈ kept) as Hd.
  { change kept with (Fmount.drives (Fmount.self
      (Fmount.World (Fmount.mk kept (Fmount.run (Fmount.self w))) (a', rest)
         (Fmount.calls w ++ [Fmount.Call d (Fmount.drives (Fmount.self w) ++ [d])])))).
    eapply FmountFacts.enumerated_tracked; [exact Hdet|].
    assert (d ∈ FmountSpec.appeared (Fmount.drives (Fmount.self w)) gen) as Hin
      by (rewrite Hnew; by apply list_elem_of_singleton).
    by apply FmountFacts.appeared_elem_of in Hin as [? _]. }
  split; [exact Hd|].
  intros cb2 gen2.
  set (w' := Fmount.World _ _ _).
  destruct (FmountFacts.detect_new_drives_total cb2 gen2 w') as (c2 & w2 & Hdet2).
  destruct (FmountFacts.tracked_not_reported cb2 gen2 w' c2 w2 d Hd Hdet2)
    as (log2 & Hlog2 & Hnot).
  exists c2, w2, log2. split_and!; [done..|].
  intros -> Hend Hin. destruct gen2 as [ys2 e2]. simpl in *. subst e2.
  by eapply FmountFacts.enumerated_tracked.
Qed.

Lemma cancelled_prompt_is_silent_witness :
  let env := λ _ : Path, SyncEnv (inr 3) true in
  let a0 := mkApp ∅ None 0 [] ∅ in
  let a1 := shown [Sleep sleep_before_sync; PopupGetFolder None] a0 in
  let w0 := Fmount.World (Fmount.mk ["C:/"] true) (a0, [Answer None false false]) [] in
  ui_sync_drive env "E:/" None 990 [Answer None false false] a0 = (Normal, [], a1) ∧
  Fmount.detect_new_drives (Some (ui_sync_drive_callback env 990))
    (["C:/"; "E:/"], Fmount.StopIteration) w0
    = Some (Normal, Fmount.World (Fmount.mk ["C:/"; "E:/"] true) (a1, [])
                      [Fmount.Call "E:/" ["C:/"; "E:/"]]).
Proof.
  intros env a0 a1 w0.
  destruct (cancelled_prompt_is_silent env 990 w0 ["C:/"; "E:/"] "E:/"
              (Answer None false false) [] a0 eq_refl eq_refl eq_refl)
    as (Hrun & _ & _ & _ & kept & Hdet & _).
  split; [exact Hrun|]. reflexivity.
Defined.

End SyncProps.

(** ** Further properties of the tracker *)
Module FmountExtra.
Import Fmount FmountSpec FmountFacts.

(** X1. [find_drives] over a listing yields, in listing order, only
    entries for which [is_dir] answered True; it ends without an
    exception exactly when no [is_dir] raises, and then it has yielded
    every directory of the listing. *)
Theorem find_drives_yields_directories (entries : list (Path * probe)) :
  let r := find_drives (Listed entries) in
  sublist r.1 entries.*1 ∧
  (∀ d, d ∈ r.1 → (d, IsDir) ∈ entries) ∧
  (r.2 = StopIteration ↔ ∀ d, (d, ProbeError) ∉ entries) ∧
  (r.2 = StopIteration → r.1 = (filter (λ e, e.2 = IsDir) entries).*1).
Proof.
  simpl. split_and!.
  - apply probe_entries_sublist.
  - induction entries as [|[x p] entries IH]; simpl; [by intros ? ?%elem_of_nil|].
    destruct p; simpl.
    + destruct (probe_entries entries) as [ys e]. simpl in *.
      intros d [->|Hd]%elem_of_cons; apply elem_of_cons; [by left|right; by apply IH].
    + intros d Hd. apply elem_of_cons. right. by apply IH.
    + by intros ? ?%elem_of_nil.
  - split.
    + induction entries as [|[x p] entries IH]; simpl; [by intros _ ? ?%elem_of_nil|].
      destruct p; simpl.
      * destruct (probe_entries entries) as [ys e]. simpl in *.
        intros He d [[=]|Hd]%elem_of_cons. by eapply IH.
      * intros He d [[=]|Hd]%elem_of_cons. by eapply IH.
      * done.
    + intros Hok. by rewrite probe_entries_ok.
  - intros He. rewrite probe_entries_ok; [done|].
    induction entries as [|[x p] entries IH]; simpl in *; [by intros ? ?%elem_of_nil|].
    destruct p; simpl in *.
    + destruct (probe_entries entries) as [ys e]. simpl in *.
      intros d [[=]|Hd]%elem_of_cons. by eapply IH.
    + intros d [[=]|Hd]%elem_of_cons. by eapply IH.
    + done.
Qed.

Lemma find_drives_yields_directories_witness :
  find_drives (Listed [("C:/", IsDir); ("D:/", NotDir); ("E:/", IsDir)])
    = (["C:/"; "E:/"], StopIteration) ∧
  (find_drives (Listed [("C:/", IsDir); ("D:/", NotDir); ("E:/", IsDir)])).1
    = (filter (λ e, e.2 = IsDir) [("C:/", IsDir); ("D:/", NotDir); ("E:/", IsDir)]).*1.
Proof.
  split; [reflexivity|].
  destruct (find_drives_yields_directories
              [("C:/", IsDir); ("D:/", NotDir); ("E:/", IsDir)]) as (_ & _ & _ & Hall).
  apply Hall. reflexivity.
Defined.

Section WithHandler.
Context {H : Type}.
Implicit Types (f : callback H) (cb : option (callback H)) (w : world H).

(** When every enumerated drive is already tracked the first loop calls
    nothing and appends nothing, whatever the callback. *)
Lemma add_loop_nothing_new cb gen (a : adding H) :
  (∀ d, d ∈ gen → d ∈ a_drives a) →
  add_loop cb gen a =
    (Normal, Adding (a_drives a) (a_seen a ++ gen) (a_handler a) (a_calls a)).
Proof.
  revert a. induction gen as [|d gen IH]; intros [ds seen h log] Hall; simpl in *.
  - by rewrite app_nil_r.
  - rewrite decide_True by (apply Hall, elem_of_cons; by left).
    rewrite IH; simpl; [by rewrite <- app_assoc|].
    intros x Hx. apply Hall, elem_of_cons. by right.
Qed.

(** When every entry from position [i] on was enumerated the removal
    loop deletes nothing. *)
Lemma remove_loop_all_seen fuel i seen ds :
  length ds ≤ fuel + i → (∀ d, d ∈ ds → d ∈ seen) →
  remove_loop fuel i seen ds = Some (Normal, ds).
Proof.
  revert i. induction fuel as [|fuel IH]; intros i Hlen Hall; simpl.
  - destruct (ds !! i) as [d|] eqn:Hd; [|done].
    apply lookup_lt_Some in Hd. lia.
  - destruct (ds !! i) as [d|] eqn:Hd; [|done].
    rewrite decide_True; [apply IH; [lia|done]|].
    apply Hall, list_elem_of_lookup. by exists i.
Qed.

(** X2. A poll that completes never drops an enumerated drive, tracks
    nothing that was neither tracked before nor enumerated, keeps the
    surviving drives in their former order with the new ones behind
    them, and leaves the [run] flag alone. This holds for every callback
    and every tracked list. *)
Theorem poll_keeps_enumerated cb (gen : list Path) w w' :
  detect_new_drives cb (gen, StopIteration) w = Some (Normal, w') →
  (∀ d, d ∈ gen → d ∈ drives (self w')) ∧
  (∀ d, d ∈ drives (self w') → d ∈ drives (self w) ∨ d ∈ gen) ∧
  (∃ news, sublist news gen ∧ sublist (drives (self w')) (drives (self w) ++ news)) ∧
  run (self w') = run (self w).
Proof.
  intros Hdet. split; [intros d; by eapply enumerated_tracked|].
  apply detect_new_drives_inv in Hdet
    as (news & log & kept & Hsub & _ & _ & _ & -> & Hkept & _ & Hrun & _).
  simpl in Hsub. split_and!; [|by exists news|done].
  intros d Hd. eapply elem_of_sublist in Hd; [|exact Hkept].
  apply elem_of_app in Hd as [?|Hd]; [by left|right].
  by eapply elem_of_sublist.
Qed.

(** X3. When the tracked list has no duplicate and no two neighbours of
    it (new drives appended) are both missing from the enumeration, a
    poll with a callback that returns leaves exactly the enumerated
    drives tracked: the still-present old drives in their order, then
    the new ones in enumeration order. *)
Theorem poll_exact_when_isolated f (gen : list Path) w :
  returns f → NoDup (drives (self w)) →
  isolated gen (drives (self w) ++ appeared (drives (self w)) gen) →
  ∃ w', detect_new_drives (Some f) (gen, StopIteration) w = Some (Normal, w') ∧
        drives (self w') =
          filter (λ d, d ∈ gen) (drives (self w)) ++ appeared (drives (self w)) gen ∧
        ∀ d, d ∈ drives (self w') ↔ d ∈ gen.
Proof.
  intros Hf Hnd Hiso.
  destruct (detect_new_drives_returns f gen w Hf) as (kept & Hrm & Hdet).
  set (tracked := drives (self w)) in *. set (news := appeared tracked gen) in *.
  assert (∀ d, d ∈ news → d ∈ gen) as Hnews.
  { intros d Hd. by apply appeared_elem_of in Hd as [? _]. }
  rewrite (remove_loop_sweep _ gen [] (tracked ++ news)) in Hrm;
    [|by apply appeared_NoDup|done].
  injection Hrm as <-. simpl in Hdet.
  rewrite (sweep_isolated gen (tracked ++ news)) in * by done.
  assert (filter (λ d, d ∈ gen) news = news) as Hfn.
  { clear -Hnews. induction news as [|x news IH]; [done|].
    rewrite filter_cons_True by (apply Hnews, elem_of_cons; by left).
    f_equal. apply IH. intros d Hd. apply Hnews, elem_of_cons. by right. }
  rewrite filter_app, Hfn in *.
  eexists. split; [exact Hdet|]. simpl. split; [done|].
  intros d. rewrite elem_of_app, list_elem_of_filter. split.
  - intros [[? _]|?]; [done|by apply Hnews].
  - intros Hd. destruct (decide (d ∈ tracked)); [by left|].
    right. by apply appeared_elem_of.
Qed.

(** X4. A poll whose enumeration holds exactly the tracked drives, in
    any order and with any repetition, changes nothing: no callback
    call, the same tracked list, the same state. In particular the
    drives of the baseline are not reported by a first poll that finds
    the same drives. *)
Theorem poll_without_change_is_noop cb (gen : list Path) w :
  (∀ d, d ∈ gen ↔ d ∈ drives (self w)) →
  detect_new_drives cb (gen, StopIteration) w = Some (Normal, w).
Proof.
  intros Hsame. unfold detect_new_drives. simpl.
  rewrite add_loop_nothing_new by (intros d Hd; by apply Hsame). simpl.
  rewrite remove_loop_all_seen; [|lia|intros d Hd; by apply Hsame].
  simpl. by destruct w as [[ds r] h log].
Qed.

(** X5. After a poll that completed, a second poll over the same
    enumeration calls the callback on nothing and leaves the callback's
    state as it was, whatever callback is passed the second time. *)
Theorem second_poll_is_silent cb cb2 (gen : list Path) e w w1 :
  detect_new_drives cb (gen, StopIteration) w = Some (Normal, w1) →
  ∃ c2 w2, detect_new_drives cb2 (gen, e) w1 = Some (c2, w2) ∧
           calls w2 = calls w1 ∧ handler w2 = handler w1 ∧
           (e = StopIteration → c2 = Normal) ∧
           ∀ d, d ∈ gen → d ∈ drives (self w2).
Proof.
  intros H1.
  assert (∀ d, d ∈ gen → d ∈ drives (self w1)) as Hall
    by (intros d; by eapply enumerated_tracked).
  unfold detect_new_drives. simpl. rewrite add_loop_nothing_new by done. simpl.
  destruct e.
  - destruct (remove_loop_total (length (drives (self w1))) 0 gen (drives (self w1)))
      as [kept Hkept]; [lia|].
    rewrite Hkept. simpl. eexists _, _. split_and!; [done..|].
    simpl. intros d Hd. eapply remove_loop_keeps; [done..|by apply Hall].
  - eexists _, _. split_and!; [done..|]. simpl. exact Hall.
Qed.

(** X6. The tracked list a poll produces does not depend on the
    callback: without a callback the poll completes with the same
    tracked list as with any callback that returns, and with the
    callback's state and the call log untouched. *)
Theorem tracked_independent_of_callback f (gen : list Path) w :
  returns f →
  ∃ kept h' log',
    detect_new_drives (Some f) (gen, StopIteration) w =
      Some (Normal, World (mk kept (run (self w))) h' log') ∧
    detect_new_drives None (gen, StopIteration) w =
      Some (Normal, World (mk kept (run (self w))) (handler w) (calls w)).
Proof.
  intros Hf.
  destruct (detect_new_drives_returns f gen w Hf) as (kept & Hrm & Hdet).
  eexists kept, _, _. split; [exact Hdet|].
  unfold detect_new_drives. simpl. rewrite add_loop_no_callback. simpl.
  by rewrite Hrm.
Qed.

(** The first loop when the callback does not return from its call on
    the first new drive. *)
Lemma add_loop_first_fails f gen (a : adding H) d more c h' :
  appeared (a_drives a) gen = d :: more →
  f d (a_handler a) = (c, h') → c ≠ Normal →
  ∃ seen, add_loop (Some f) gen a =
            (c, Adding (a_drives a ++ [d]) seen h' (a_calls a ++ [Call d (a_drives a ++ [d])])).
Proof.
  revert a. induction gen as [|x gen IH]; intros [ds seen h log]; simpl; [done|].
  destruct (decide (x ∈ ds)) as [Hx|Hx].
  - intros Hnew Hf Hc. by apply (IH (Adding ds (seen ++ [x]) h log)).
  - intros [= -> _] Hf Hc. rewrite Hf. destruct c; [done|by eexists..].
Qed.

Lemma scan_stopped cb ticks w :
  run (self w) = false → scan cb ticks w = Some (Stopped, w).
Proof. intros Hrun. destruct ticks; simpl; by rewrite Hrun. Qed.

(** X7. [scan] with a callback that returns, over ticks whose
    enumerations raise nothing, started with [run] True: it performs
    exactly one poll per tick up to and including the first tick during
    which [stop()] is called, in order. If there is such a tick the loop
    has exited with [run] False and the later ticks are never polled;
    otherwise it is still polling. *)
Theorem scan_polls_until_stopped f (ticks : list tick) w :
  returns f → run (self w) = true → Forall tick_ok ticks →
  ∃ w', replay (Some f) (tick_snapshot <$> until_stop ticks) w = Some (Normal, w') ∧
        scan (Some f) ticks w =
          Some (if existsb tick_stop ticks
                then (Stopped, World (stop (self w')) (handler w') (calls w'))
                else (Polling, w')).
Proof.
  intros Hf. revert w. induction ticks as [|tk ticks IH]; intros w Hrun Hok.
  - exists w. simpl. by rewrite Hrun.
  - apply Forall_cons in Hok as [Htk Hok].
    destruct (detect_new_drives_returns f (tick_snapshot tk) w Hf) as (kept & _ & Hdet).
    set (w1 := World _ _ _) in Hdet.
    assert (find_drives (tick_os tk) = (tick_snapshot tk, StopIteration)) as Hfd.
    { unfold tick_snapshot, tick_ok in *. by destruct (find_drives (tick_os tk)) as [ys e];
        simpl in *; subst. }
    cbn [scan existsb until_stop]. rewrite Hrun, Hfd, Hdet.
    cbn [mbind option_bind].
    destruct (tick_stop tk) eqn:Hstop; cbn [orb].
    + exists w1. rewrite fmap_cons. cbn [replay fmap list_fmap].
      rewrite Hdet. cbn [mbind option_bind]. split; [done|].
      by rewrite scan_stopped.
    + destruct (IH w1) as (w' & Hrep & Hscan); [done..|].
      exists w'. rewrite fmap_cons. cbn [replay]. rewrite Hdet.
      cbn [mbind option_bind]. by rewrite Hrep, Hscan.
Qed.

End WithHandler.

Lemma poll_keeps_enumerated_witness :
  let w' := World (mk ["E:/"; "C:/"; "F:/"] true) () [] in
  (∀ d, d ∈ ["C:/"; "F:/"; "E:/"] → d ∈ drives (self w')) ∧
  run (self w') = true.
Proof.
  intros w'.
  destruct (poll_keeps_enumerated None ["C:/"; "F:/"; "E:/"]
              (World (mk ["D:/"; "E:/"; "C:/"] true) () []) w' eq_refl)
    as (Hall & _ & _ & Hrun).
  split; [exact Hall|exact Hrun].
Defined.

Lemma second_poll_is_silent_witness :
  let w1 := World (mk ["C:/"; "E:/"] true) ["E:/"] [Call "E:/" ["C:/"; "D:/"; "E:/"]] in
  ∃ c2 w2,
    detect_new_drives (Some recording_callback) (["E:/"; "C:/"], StopIteration) w1
      = Some (c2, w2) ∧
    calls w2 = calls w1 ∧ handler w2 = handler w1.
Proof.
  intros w1.
  destruct (second_poll_is_silent (Some recording_callback) (Some recording_callback)
              ["E:/"; "C:/"] StopIteration
              (World (mk ["C:/"; "D:/"] true) [] []) w1 eq_refl)
    as (c2 & w2 & Hdet & Hcalls & Hh & _).
  exists c2, w2. split; [exact Hdet|]. split; [exact Hcalls|exact Hh].
Defined.

Lemma poll_exact_when_isolated_witness :
  ∃ w', detect_new_drives (Some recording_callback) (["F:/"; "C:/"; "E:/"], StopIteration)
          (World (mk ["C:/"; "D:/"; "E:/"; "G:/"] true) [] []) = Some (Normal, w') ∧
        drives (self w') = ["C:/"; "E:/"; "F:/"] ∧
        ∀ d, d ∈ drives (self w') ↔ d ∈ ["F:/"; "C:/"; "E:/"].
Proof.
  apply (poll_exact_when_isolated recording_callback ["F:/"; "C:/"; "E:/"]
           (World (mk ["C:/"; "D:/"; "E:/"; "G:/"] true) [] [])).
  - intros d h. reflexivity.
  - apply (bool_decide_unpack _). vm_compute. exact I.
  - simpl. repeat split.
    + left. apply (bool_decide_unpack _). vm_compute. exact I.
    + right. apply (bool_decide_unpack _). vm_compute. exact I.
    + left. apply (bool_decide_unpack _). vm_compute. exact I.
    + right. apply (bool_decide_unpack _). vm_compute. exact I.
Defined.

Lemma poll_without_change_is_noop_witness :
  let w := World (mk ["C:/"; "D:/"] true) ["D:/"] [Call "D:/" ["C:/"; "D:/"]] in
  detect_new_drives (Some recording_callback) (["D:/"; "C:/"; "D:/"], StopIteration) w
    = Some (Normal, w).
Proof.
  intros w. apply poll_without_change_is_noop. intros d. simpl.
  rewrite !elem_of_cons. split.
  - intros [->|[->|[->|Hd]]]; [right; by left|by left|right; by left|].
    by apply elem_of_nil in Hd.
  - intros [->|[->|Hd]]; [right; by left|by left|]. by apply elem_of_nil in Hd.
Defined.

Lemma tracked_independent_of_callback_witness :
  ∃ kept h' log',
    detect_new_drives (Some recording_callback) (["E:/"; "C:/"], StopIteration)
      (World (mk ["C:/"; "D:/"] true) [] []) =
      Some (Normal, World (mk kept true) h' log') ∧
    detect_new_drives None (["E:/"; "C:/"], StopIteration)
      (World (mk ["C:/"; "D:/"] true) [] []) =
      Some (Normal, World (H:=list Path) (mk kept true) [] []).
Proof.
  apply (tracked_independent_of_callback recording_callback ["E:/"; "C:/"]
           (World (mk ["C:/"; "D:/"] true) [] [])).
  intros d h. reflexivity.
Defined.

Lemma recording_callback_returns_again : returns recording_callback.
Proof. intros d h. reflexivity. Qed.

Lemma scan_polls_until_stopped_witness :
  let dirs := λ ds : list Path, Listed ((λ d, (d, IsDir)) <$> ds) in
  scan (Some recording_callback)
    [Tick (dirs ["C:/"; "E:/"]) false; Tick (dirs ["C:/"]) true; Tick (dirs ["C:/"; "F:/"]) false]
    (World (mk ["C:/"] true) [] [])
  = Some (Stopped, World (mk ["C:/"] false) ["E:/"] [Call "E:/" ["C:/"; "E:/"]]).
Proof.
  intros dirs.
  destruct (scan_polls_until_stopped recording_callback
              [Tick (dirs ["C:/"; "E:/"]) false; Tick (dirs ["C:/"]) true;
               Tick (dirs ["C:/"; "F:/"]) false]
              (World (mk ["C:/"] true) [] []) recording_callback_returns_again eq_refl)
    as (w' & Hrep & Hscan).
  - repeat constructor.
  - rewrite Hscan. vm_compute in Hrep. injection Hrep as <-. reflexivity.
Defined.

End FmountExtra.

(** ** Further properties of the orchestrator *)
Module SyncExtra.
Import Sync SyncSpec SyncProps.

(** *** The configuration store *)

Lemma cp_get_updated_other_section key value section k c :
  section ≠ "Settings" → cp_get section k (updated key value c) = cp_get section k c.
Proof.
  intros Hne. unfold cp_get, updated. by rewrite lookup_insert_ne.
Qed.


Lemma icon_path_unset a :
  cp_get "Settings" "icon_path" (config a) = None →
  icon_path a = (inr default_icon_path, defaulted "icon_path" default_icon_path a).
Proof.
  intros Hv. unfold icon_path, bind, gets, ret. rewrite Hv.
  by rewrite set_settings_spec by done.
Qed.

Lemma icon_path_stored a v :
  cp_get "Settings" "icon_path" (config a) = Some v → icon_path a = (inr v, a).
Proof. intros Hv. unfold icon_path, bind, gets, ret. by rewrite Hv. Qed.

Lemma sync_interval_unset float_of_str str_of_float a :
  valid_syntax (str_of_float default_sync_interval) = true →
  cp_get "Settings" "sync_interval" (config a) = None →
  sync_interval float_of_str str_of_float a =
    (inr default_sync_interval,
     defaulted "sync_interval" (str_of_float default_sync_interval) a).
Proof.
  intros Hvalid Hv. unfold sync_interval, getfloat, bind, gets, ret. rewrite Hv.
  by rewrite set_settings_spec by done.
Qed.


(** X8. [set_settings(key, value)] on one of the program's options
    either stores or rejects. A value without a percent sign is stored,
    with or without a "Settings" section: the key then reads back as the
    value, the program's other options and every other section read as
    before, and the file is rewritten once with the whole configuration.
    A value that [ConfigParser.set] rejects, a percent sign that is
    neither doubled nor the start of a reference [%(name)s], makes
    ValueError leave [set_settings]: a missing "Settings" section has
    been created in memory, but every option reads as before and the
    file is not rewritten. *)
Theorem set_settings_stores_or_rejects (key value : string) (a : App) :
  key ∈ option_names →
  (percent_free value = true →
     ∃ a', set_settings key value a = (inr (), a') ∧
           cp_get "Settings" key (config a') = Some value ∧
           (∀ k, k ∈ option_names → k ≠ key →
              cp_get "Settings" k (config a') = cp_get "Settings" k (config a)) ∧
           (∀ section k, section ≠ "Settings" →
              cp_get section k (config a') = cp_get section k (config a)) ∧
           ini_file a' = Some (config a') ∧
           writes a' = S (writes a) ∧ ui a' = ui a ∧ fs a' = fs a) ∧
  (valid_syntax value = false →
     ∃ a', set_settings key value a = (inl ValueError, a') ∧
           has_section "Settings" (config a') = true ∧
           (∀ section k, cp_get section k (config a') = cp_get section k (config a)) ∧
           ini_file a' = ini_file a ∧
           writes a' = writes a ∧ ui a' = ui a ∧ fs a' = fs a).
Proof.
  intros _. split.
  - intros Hfree. eexists.
    split; [apply set_settings_spec; by apply percent_free_valid|]. simpl.
    split_and!; [apply cp_get_updated| | |done..].
    + intros k _ Hne. apply cp_get_updated_ne. by intros ->.
    + intros section k Hs. by apply cp_get_updated_other_section.
  - intros Hbad. exists (section_ensured a).
    split; [by apply set_settings_rejected|].
    split_and!; [|apply section_ensured_cp_get|..];
      unfold section_ensured, has_section, add_section;
      destruct (bool_decide (is_Some (config a !! "Settings"))) eqn:Hb; try done.
    simpl. apply bool_decide_eq_true_2. rewrite lookup_insert_eq. by eexists.
Qed.

Lemma set_settings_stores_or_rejects_witness :
  let c : ConfigParser := {[ "Settings" := {[ "remote_path" := "DCIM" ]} ]} in
  (∃ a', set_settings "local_folder" "C:/photos" (mkApp c None 0 [] ∅) = (inr (), a') ∧
         cp_get "Settings" "local_folder" (config a') = Some "C:/photos" ∧
         cp_get "Settings" "remote_path" (config a') = Some "DCIM" ∧
         writes a' = 1) ∧
  (∃ a', set_settings "local_folder" "C:/100%" (mkApp ∅ None 0 [] ∅)
           = (inl ValueError, a') ∧
         has_section "Settings" (config a') = true ∧
         ini_file a' = None ∧ writes a' = 0).
Proof.
  intros c. split.
  - destruct (set_settings_stores_or_rejects "local_folder" "C:/photos"
                (mkApp c None 0 [] ∅)) as [Hstore _].
    + apply (bool_decide_unpack _). vm_compute. exact I.
    + destruct Hstore as (a' & Hset & Hget & Hother & _ & _ & Hw & _); [reflexivity|].
      exists a'. split; [exact Hset|]. split; [exact Hget|]. split; [|exact Hw].
      rewrite (Hother "remote_path"); [reflexivity| |discriminate].
      apply (bool_decide_unpack _). vm_compute. exact I.
  - destruct (set_settings_stores_or_rejects "local_folder" "C:/100%"
                (mkApp ∅ None 0 [] ∅)) as [_ Hreject].
    + apply (bool_decide_unpack _). vm_compute. exact I.
    + destruct Hreject as (a' & Hset & Hhas & _ & Hfile & Hw & _); [reflexivity|].
      exists a'. split; [exact Hset|]. split; [exact Hhas|]. split; [exact Hfile|exact Hw].
Defined.

(** *** Cleaning the source *)





(** *** Synchronising one volume *)

Lemma remote_path_resolved a :
  remote_path a = (inr (remote_resolved a).1, (remote_resolved a).2) ∧
  ui (remote_resolved a).2 = ui a ∧ fs (remote_resolved a).2 = fs a ∧
  cp_get "Settings" "local_folder" (config (remote_resolved a).2)
    = cp_get "Settings" "local_folder" (config a).
Proof.
  unfold remote_path, remote_resolved, bind, gets, ret.
  destruct (cp_get "Settings" "remote_path" (config a)) as [r|]; [done|].
  rewrite set_settings_spec by done. split_and!; [done..|].
  simpl. by apply cp_get_updated_ne.
Qed.

Lemma sync_drive_dirsync_raises env drive a target e :
  cp_get "Settings" "local_folder" (config a) = Some target →
  dirsync_result env = inl e →
  sync_drive env drive a =
    (inl e, emit (Dirsync (drive, (remote_resolved a).1) target) (remote_resolved a).2).
Proof.
  intros Ht He. destruct (remote_path_resolved a) as (Hremote & _ & _ & Hlf).
  unfold sync_drive, bind. rewrite Hremote.
  unfold local_folder, gets, modify, raise. by rewrite Hlf, Ht, He.
Qed.





(** *** The detection handler and the scan *)

Lemma ui_sync_drive_valid_run env drive sleep budget ans f script a :
  valid_choice ans f → percent_free f = true →
  ui_sync_drive env drive sleep budget (ans :: script) a =
    (completion_of (sync_drive (env drive) drive (folder_chosen sleep f a)).1, script,
     (sync_drive (env drive) drive (folder_chosen sleep f a)).2) ∧
  cp_get "Settings" "local_folder" (config (folder_chosen sleep f a)) = Some f.
Proof.
  intros (Hf & Hne & Hv) Hfree. split.
  - assert (ui_sync_drive env drive sleep budget (ans :: script) a
            = ui_sync_drive env drive sleep 0 (ans :: script) a) as ->
      by (destruct budget; cbn [ui_sync_drive]; by rewrite Hf, Hv).
    cbn [ui_sync_drive]. rewrite Hf, Hv. simpl truthy.
    rewrite bool_decide_eq_false_2 by done. simpl negb. cbv iota.
    set (a0 := emit _ (emit _ a)).
    assert (a0 = shown [Sleep (default sleep_before_sync sleep);
                        PopupGetFolder (cp_get "Settings" "local_folder" (config a))] a)
      as Ha0 by (unfold a0, emit, shown; simpl; by rewrite <- app_assoc).
    unfold bind at 1. unfold local_folder at 1. unfold gets.
    unfold bind. unfold folder_chosen. rewrite <- Ha0.
    replace (cp_get "Settings" "local_folder" (config a))
      with (cp_get "Settings" "local_folder" (config a0)) by (by rewrite Ha0).
    destruct (decide (Some f = cp_get "Settings" "local_folder" (config a0))) as [E|E].
    + rewrite bool_decide_eq_true_2 by done.
      rewrite (bool_decide_eq_true_2 (cp_get "Settings" "local_folder" (config a0) = Some f))
        by done.
      unfold ret. by destruct (sync_drive (env drive) drive a0) as [[e|[]] a2].
    + rewrite bool_decide_eq_false_2 by done.
      rewrite (bool_decide_eq_false_2 (cp_get "Settings" "local_folder" (config a0) = Some f))
        by (intros E'; by rewrite E' in E).
      unfold set_local_folder. simpl default.
      rewrite set_settings_spec by by apply percent_free_valid.
      unfold defaulted.
      by destruct (sync_drive (env drive) drive _) as [[e|[]] a2].
  - unfold folder_chosen. case_bool_decide as E; [done|]. apply cp_get_updated.
Qed.

(** X14. When the user picks an existing directory [f] whose name holds
    no percent sign, [ui_sync_drive] is the sleep, the prompt, then
    [sync_drive] run in a state where [f] is the configured folder: [f]
    is stored and the file rewritten first if it differs from the folder
    configured before, and nothing is written for it if it is the same.
    The answer is consumed and the call ends as [sync_drive] ends,
    whatever room is left for nested calls. *)
Theorem ui_sync_drive_valid_choice (env : Path → sync_env) (drive : Path)
    (sleep : option Q) (budget : nat) (ans : answer) (f : string)
    (script : list answer) (a : App) :
  valid_choice ans f →
  percent_free f = true →
  let a1 := folder_chosen sleep f a in
  let r := sync_drive (env drive) drive a1 in
  ui_sync_drive env drive sleep budget (ans :: script) a
    = (completion_of r.1, script, r.2) ∧
  cp_get "Settings" "local_folder" (config a1) = Some f ∧
  (cp_get "Settings" "local_folder" (config a) = Some f →
     config a1 = config a ∧ ini_file a1 = ini_file a ∧ writes a1 = writes a) ∧
  (cp_get "Settings" "local_folder" (config a) ≠ Some f →
     ini_file a1 = Some (config a1) ∧ writes a1 = S (writes a)).
Proof.
  intros Hv Hfree a1 r.
  destruct (ui_sync_drive_valid_run env drive sleep budget ans f script a Hv Hfree)
    as [Hrun Hlf].
  split_and!; [exact Hrun|exact Hlf| |].
  - intros E. unfold a1, folder_chosen. by rewrite bool_decide_eq_true_2.
  - intros E. unfold a1, folder_chosen. by rewrite bool_decide_eq_false_2.
Qed.

Lemma ui_sync_drive_valid_choice_witness :
  let env := λ _ : Path, SyncEnv (inr 3) false in
  let c : ConfigParser := {[ "Settings" := {[ "remote_path" := "DCIM" ]} ]} in
  let c' : ConfigParser :=
    {[ "Settings" := {[ "remote_path" := "DCIM"; "local_folder" := "C:/photos" ]} ]} in
  ui_sync_drive env "E:/" None 990 [Answer (Some "C:/photos") true true]
      (mkApp c (Some c) 0 [] ∅)
    = (Normal, [],
       mkApp c' (Some c') 1
         [Sleep 2.0%Q; PopupGetFolder None;
          Dirsync ("E:/", "DCIM") "C:/photos"; PopupOkCancel 3] ∅).
Proof.
  intros env c c'.
  destruct (ui_sync_drive_valid_choice env "E:/" None 990
              (Answer (Some "C:/photos") true true)
              "C:/photos" [] (mkApp c (Some c) 0 [] ∅)) as (Hrun & _).
  - split; [reflexivity|]. split; [discriminate|reflexivity].
  - reflexivity.
  - rewrite Hrun. reflexivity.
Defined.

Lemma valid_syntax_false_not_free f : valid_syntax f = false → percent_free f = false.
Proof.
  intros Hbad. destruct (percent_free f) eqn:Hfree; [|done].
  apply percent_free_valid in Hfree. by rewrite Hfree in Hbad.
Qed.

(** X18. When the user picks an existing directory [f] whose name
    [ConfigParser.set] rejects, a percent sign that is neither doubled
    nor the start of a reference [%(name)s], and the folder configured so
    far, if any, holds no percent sign, ValueError leaves [ui_sync_drive]
    from the [local_folder] setter: after the sleep and the prompt
    nothing more is shown, [dirsync.sync] is not called, every option
    reads as before, the file is not rewritten and the source
    directories are untouched. *)
Theorem folder_with_stray_percent_rejected (env : Path → sync_env) (drive : Path)
    (sleep : option Q) (budget : nat) (ans : answer) (f : string)
    (script : list answer) (a : App) :
  valid_choice ans f →
  valid_syntax f = false →
  (∀ v, cp_get "Settings" "local_folder" (config a) = Some v → percent_free v = true) →
  let lf := cp_get "Settings" "local_folder" (config a) in
  let a' := section_ensured
              (shown [Sleep (default sleep_before_sync sleep); PopupGetFolder lf] a) in
  ui_sync_drive env drive sleep budget (ans :: script) a
    = (Raised ValueError, script, a') ∧
  (∀ section k, cp_get section k (config a') = cp_get section k (config a)) ∧
  ini_file a' = ini_file a ∧ writes a' = writes a ∧ fs a' = fs a ∧
  ui a' = ui a ++ [Sleep (default sleep_before_sync sleep); PopupGetFolder lf].
Proof.
  intros (Hf & Hne & Hv) Hbad Hplain lf a'.
  assert (lf ≠ Some f) as Hlf.
  { intros E. apply Hplain in E. apply valid_syntax_false_not_free in Hbad.
    by rewrite E in Hbad. }
  split_and!.
  - assert (ui_sync_drive env drive sleep budget (ans :: script) a
            = ui_sync_drive env drive sleep 0 (ans :: script) a) as ->
      by (destruct budget; cbn [ui_sync_drive]; by rewrite Hf, Hv).
    cbn [ui_sync_drive]. rewrite Hf, Hv. simpl truthy.
    rewrite bool_decide_eq_false_2 by done. simpl negb. cbv iota.
    set (a0 := emit _ (emit _ a)).
    assert (a0 = shown [Sleep (default sleep_before_sync sleep); PopupGetFolder lf] a)
      as Ha0 by (unfold a0, emit, shown; simpl; by rewrite <- app_assoc).
    unfold bind at 1. unfold local_folder at 1. unfold gets.
    rewrite bool_decide_eq_false_2
      by (intros E; apply Hlf; symmetry; exact E).
    unfold bind. unfold set_local_folder. simpl default.
    rewrite set_settings_rejected by done. by rewrite Ha0.
  - intros section k. unfold a'. by rewrite section_ensured_cp_get.
  - unfold a', section_ensured. by destruct (has_section _ _).
  - unfold a', section_ensured. by destruct (has_section _ _).
  - unfold a', section_ensured. by destruct (has_section _ _).
  - unfold a', section_ensured. by destruct (has_section _ _).
Qed.

Lemma folder_with_stray_percent_rejected_witness :
  let env := λ _ : Path, SyncEnv (inr 3) true in
  let c : ConfigParser := {[ "Settings" := {[ "remote_path" := "DCIM" ]} ]} in
  ui_sync_drive env "E:/" None 990 [Answer (Some "C:/100%") true true]
      (mkApp c (Some c) 0 [] ∅)
    = (Raised ValueError, [],
       mkApp c (Some c) 0 [Sleep 2.0%Q; PopupGetFolder None] ∅).
Proof.
  intros env c.
  destruct (folder_with_stray_percent_rejected env "E:/" None 990
              (Answer (Some "C:/100%") true true)
              "C:/100%" [] (mkApp c (Some c) 0 [] ∅)) as (Hrun & _).
  - split; [reflexivity|]. split; [discriminate|reflexivity].
  - reflexivity.
  - intros v Hv. discriminate Hv.
  - rewrite Hrun. reflexivity.
Defined.

(** X15. An exception of [dirsync.sync] is caught nowhere: when the
    first new drive [d] of a poll gets as answer an existing directory
    whose name holds no percent sign and [dirsync.sync] raises, the exception leaves [ui_sync_drive],
    [detect_new_drives] and [scan]; no later tick is polled. The drive
    stays tracked, the chosen folder stays configured and the source
    directories are untouched. *)
Theorem sync_failure_ends_scan (env : Path → sync_env) (budget : nat)
    (tk : Fmount.tick) (later : list Fmount.tick) (w : Fmount.world callback_state)
    (a : App) (ans : answer) (rest : list answer) (f : string) (e : exn)
    (d : Path) (more : list Path) :
  Fmount.run (Fmount.self w) = true →
  FmountSpec.tick_ok tk →
  FmountSpec.appeared (Fmount.drives (Fmount.self w)) (FmountSpec.tick_snapshot tk)
    = d :: more →
  Fmount.handler w = (a, ans :: rest) →
  valid_choice ans f →
  percent_free f = true →
  dirsync_result (env d) = inl e →
  ∃ a',
    Fmount.scan (Some (ui_sync_drive_callback env budget)) (tk :: later) w =
      Some (Fmount.Aborted (Raised e),
            Fmount.World (Fmount.mk (Fmount.drives (Fmount.self w) ++ [d]) true)
              (a', rest)
              (Fmount.calls w ++
                 [Fmount.Call d (Fmount.drives (Fmount.self w) ++ [d])])) ∧
    cp_get "Settings" "local_folder" (config a') = Some f ∧
    fs a' = fs a.
Proof.
  intros Hrun Hok Hnew Hw Hv Hfree He.
  destruct (ui_sync_drive_valid_run env d None budget ans f rest a Hv Hfree) as (Hui & Hlf).
  set (a1 := folder_chosen None f a) in *.
  pose proof (sync_drive_dirsync_raises (env d) d a1 f e Hlf He) as Hraise.
  destruct (remote_path_resolved a1) as (_ & _ & Hfs & _).
  set (a' := emit (Dirsync (d, (remote_resolved a1).1) f) (remote_resolved a1).2) in *.
  rewrite Hraise in Hui. cbn [fst snd completion_of] in Hui.
  exists a'.
  assert (cp_get "Settings" "local_folder" (config a') = Some f) as Hlf'.
  { unfold a', emit. cbn [config].
    destruct (remote_path_resolved a1) as (_ & _ & _ & E). by rewrite E. }
  assert (fs a' = fs a) as Hfs'.
  { unfold a', emit. cbn [fs]. rewrite Hfs. unfold a1, folder_chosen.
    by destruct (bool_decide _). }
  split_and!; [|done..].
  assert (Fmount.find_drives (Fmount.tick_os tk)
          = (FmountSpec.tick_snapshot tk, Fmount.StopIteration)) as Hfd.
  { unfold FmountSpec.tick_snapshot, FmountSpec.tick_ok in *.
    by destruct (Fmount.find_drives (Fmount.tick_os tk)) as [ys e0]; simpl in *; subst. }
  destruct (FmountExtra.add_loop_first_fails (ui_sync_drive_callback env budget)
              (FmountSpec.tick_snapshot tk)
              (Fmount.Adding (Fmount.drives (Fmount.self w)) [] (Fmount.handler w)
                 (Fmount.calls w)) d more (Raised e) (a', rest)) as [seen Hadd];
    [done| |done|].
  { simpl. rewrite Hw. unfold ui_sync_drive_callback. by rewrite Hui. }
  cbn [Fmount.scan]. rewrite Hrun, Hfd.
  unfold Fmount.detect_new_drives. cbn [fst snd]. rewrite Hadd.
  cbn. by rewrite Hrun.
Qed.

Lemma sync_failure_ends_scan_witness :
  let env := λ _ : Path, SyncEnv (inl DelegateError) true in
  let c : ConfigParser :=
    {[ "Settings" := {[ "remote_path" := "DCIM"; "local_folder" := "C:/photos" ]} ]} in
  let a := mkApp c (Some c) 0 [] ∅ in
  let dirs := λ ds : list Path, Fmount.Listed ((λ d, (d, Fmount.IsDir)) <$> ds) in
  ∃ a',
    Fmount.scan (Some (ui_sync_drive_callback env 990))
      [Fmount.Tick (dirs ["C:/"; "E:/"]) false; Fmount.Tick (dirs ["C:/"; "E:/"]) false]
      (Fmount.World (Fmount.mk ["C:/"] true) (a, [Answer (Some "C:/photos") true true]) [])
    = Some (Fmount.Aborted (Raised DelegateError),
            Fmount.World (Fmount.mk ["C:/"; "E:/"] true) (a', [])
              [Fmount.Call "E:/" ["C:/"; "E:/"]]) ∧
    cp_get "Settings" "local_folder" (config a') = Some "C:/photos" ∧
    fs a' = ∅.
Proof.
  intros env c a dirs.
  apply (sync_failure_ends_scan env 990 (Fmount.Tick (dirs ["C:/"; "E:/"]) false)
           [Fmount.Tick (dirs ["C:/"; "E:/"]) false]
           (Fmount.World (Fmount.mk ["C:/"] true)
              (a, [Answer (Some "C:/photos") true true]) [])
           a (Answer (Some "C:/photos") true true) [] "C:/photos" DelegateError "E:/" []);
    try reflexivity.
  split; [reflexivity|]. split; [discriminate|reflexivity].
Defined.

(** *** Startup *)

Section AtStartup.
Variable float_of_str : string → option pyfloat.
Variable str_of_float : pyfloat → string.
Hypothesis str_default : str_of_float default_sync_interval = "1.0".

(** X16. Started without an ini file, [__init__] creates it before the
    first poll: reading [icon_path] and then [sync_interval] stores both
    defaults and rewrites the file twice, so the scan starts with a file
    that holds "icon.png" and "1.0" and neither a local folder nor a
    remote path. If the baseline enumeration raises, the exception
    leaves [__init__] and no file is written. *)
Theorem startup_creates_ini_file (os0 : Fmount.listing)
    (fs0 : gmap source_path entry) (env : Path → sync_env) (budget : nat)
    (script : list answer) (ticks : list Fmount.tick) :
  let c := updated "sync_interval" "1.0" (updated "icon_path" "icon.png" ∅) in
  let a := mkApp c (Some c) 2 [] fs0 in
  (∀ fm, Fmount.init os0 = inr fm →
     startup float_of_str str_of_float None os0 fs0 env budget script ticks =
       inr (Fmount.scan (Some (ui_sync_drive_callback env budget)) ticks
              (Fmount.World fm (a, script) []))) ∧
  (∀ e, Fmount.init os0 = inl e →
     startup float_of_str str_of_float None os0 fs0 env budget script ticks =
       inl (e, mkApp ∅ None 0 [] fs0)) ∧
  cp_get "Settings" "icon_path" c = Some "icon.png" ∧
  cp_get "Settings" "sync_interval" c = Some "1.0" ∧
  cp_get "Settings" "local_folder" c = None ∧
  cp_get "Settings" "remote_path" c = None.
Proof.
  intros c a. split_and!; [| |done..].
  - intros fm Hinit. unfold startup. rewrite Hinit. simpl read_ini.
    set (a0 := mkApp ∅ None 0 [] fs0).
    unfold bind. rewrite (icon_path_unset a0) by done.
    rewrite (icon_path_stored _ default_icon_path) by apply cp_get_updated.
    unfold scan_drives. cbn [Fmount.handler].
    rewrite sync_interval_unset by (by rewrite ?str_default). by rewrite str_default.
  - intros e Hinit. unfold startup. by rewrite Hinit.
Qed.

End AtStartup.


Lemma startup_creates_ini_file_witness :
  ∃ w, startup float_of_str_1_0 str_of_float_1_0 None
         (Fmount.Listed [("C:/", Fmount.IsDir)]) ∅
         (λ _, SyncEnv (inr 0) false) 990 [] [] = inr (Some (Fmount.Polling, w)) ∧
       ini_file (Fmount.handler w).1 = Some (config (Fmount.handler w).1) ∧
       writes (Fmount.handler w).1 = 2.
Proof.
  destruct (startup_creates_ini_file float_of_str_1_0 str_of_float_1_0 eq_refl
              (Fmount.Listed [("C:/", Fmount.IsDir)]) ∅
              (λ _, SyncEnv (inr 0) false) 990 [] []) as (Hrun & _).
  eexists. split; [rewrite (Hrun (Fmount.mk ["C:/"] true) eq_refl); reflexivity|].
  split; reflexivity.
Defined.


End SyncExtra.
